(** * Craft Architect: the Minecraft AI builder and its web front end

    A shallow embedding of the request path of the builder's web
    application: the [POST /api/build] route, which forwards a description
    to the Python builder and relays its answer, and the [ChatInterface]
    component, whose [handleSend] drives one build at a time and animates a
    progress bar while it waits. The builder itself (ingestor, compiler,
    scheduler, orchestrator) follows, as its specification describes it. *)

From Stdlib Require Import ZArith QArith Qround Qminmax List String Ascii Bool Lia Lqa.
From Stdlib Require Import DecimalString Sorted.
Import ListNotations.
Local Open Scope string_scope.
Local Open Scope list_scope.
Local Open Scope Z_scope.

(** ** JavaScript values as they come out of [JSON.parse] *)

Module Js.

(** A number as [JSON.parse] gives it: a finite double, held as the
    rational it is; the negative zero; or an infinity, which is what a
    literal out of the range of doubles ([1e999]) parses to. [NaN] is
    written by no JSON text. *)
Inductive number : Type :=
| Finite (q : Q)
| NegativeZero
| Infinity
| NegativeInfinity.

#[warnings="-register-all"]
Inductive json : Type :=
| JNull
| JBool (b : bool)
| JNum (n : number)
| JStr (s : string)
| JArr (items : list json)
| JObj (fields : list (string * json)).

(** [None] is [undefined]. *)
Definition value : Type := option json.

Inductive exn : Type :=
| TypeError      (* a property of null or undefined was read *)
| RangeError     (* a status no response can have *)
| SyntaxError    (* a body that is not JSON *)
| FetchError.    (* fetch rejected: the server could not be reached *)

Definition is_empty (s : string) : bool :=
  match s with EmptyString => true | String _ _ => false end.

(** [ToBoolean]. *)
Definition truthy (v : value) : bool :=
  match v with
  | None => false
  | Some JNull => false
  | Some (JBool b) => b
  | Some (JNum (Finite q)) => negb (Qeq_bool q 0)
  | Some (JNum NegativeZero) => false
  | Some (JNum _) => true
  | Some (JStr s) => negb (is_empty s)
  | Some (JArr _) => true
  | Some (JObj _) => true
  end.

Fixpoint assoc (k : string) (fields : list (string * json)) : value :=
  match fields with
  | [] => None
  | (k', v) :: rest => if String.eqb k k' then Some v else assoc k rest
  end.

(** [v.k] for a key [k] that no prototype defines ([description], [detail],
    [error], [blocks_placed], [execution_time]): reading it off [null] or
    [undefined] throws, off a primitive or an array gives [undefined]. *)
Definition get (v : value) (k : string) : exn + value :=
  match v with
  | None => inl TypeError
  | Some JNull => inl TypeError
  | Some (JObj fields) => inr (assoc k fields)
  | Some _ => inr None
  end.

(** [a || b]. *)
Definition or_else (a : value) (b : json) : json :=
  match a with
  | Some x => if truthy a then x else b
  | None => b
  end.

(** The value an object literal denotes once [JSON.stringify] has written
    it: a property whose value is [undefined] is left out. *)
Fixpoint object_of (props : list (string * value)) : list (string * json) :=
  match props with
  | [] => []
  | (k, Some v) :: rest => (k, v) :: object_of rest
  | (_, None) :: rest => object_of rest
  end.

Definition has_field (v : json) (k : string) : Prop :=
  match v with
  | JObj fields => assoc k fields <> None
  | _ => False
  end.

(** *** What [JSON.stringify] writes

    A text is held as the value it parses to at the other end. A finite
    number is written with the digits that read back as the same double,
    the negative zero as [0], an infinity as [null]; everything else is
    written as it is. *)
Fixpoint JSON_stringify (v : json) : json :=
  match v with
  | JNum (Finite q) => JNum (Finite q)
  | JNum NegativeZero => JNum (Finite 0)
  | JNum _ => JNull
  | JArr items => JArr (map JSON_stringify items)
  | JObj fields => JObj (map (fun kv => (fst kv, JSON_stringify (snd kv))) fields)
  | _ => v
  end.

(** Every number in the value is finite, and none is the negative zero. *)
Fixpoint round_trips (v : json) : bool :=
  match v with
  | JNum (Finite _) => true
  | JNum _ => false
  | JArr items => forallb round_trips items
  | JObj fields => forallb (fun kv => round_trips (snd kv)) fields
  | _ => true
  end.

(** A number that no text can carry: an infinity. *)
Definition unwritable (v : json) : Prop :=
  v = JNum Infinity \/ v = JNum NegativeInfinity.

(** *** Arithmetic on doubles

    A sum or a product of two doubles is the double nearest to the exact
    result, the one with the even significand when two are as near. A
    finite double is a multiple of the smallest positive one, 2^-1074, with
    a significand of 53 bits at most. *)

(** Round to the nearest integer, to the even one from half way. *)
Definition round_half_even (x : Q) : Z :=
  let f := Qfloor x in
  match (x - inject_Z f ?= 1 # 2)%Q with
  | Lt => f
  | Gt => f + 1
  | Eq => if Z.even f then f else f + 1
  end.

(** How many of the smallest positive double make 1. *)
Definition ulps : Z := 2 ^ 1074.

(** The distance between two neighbouring doubles around [y], both in
    units of the smallest positive double: the leading bit of [y] stands 52
    places above it, or it is 1 for the subnormal numbers. *)
Definition spacing (y : Q) : Z := 2 ^ (Z.max (Z.log2 (Qfloor y)) 52 - 52).

(** The double nearest to a rational that is not negative and below
    2^1024; the sums and products taken below stay under 103. *)
Definition round_to_double (x : Q) : Q :=
  let y := (x * inject_Z ulps)%Q in
  let q := spacing y in
  Qred (inject_Z (round_half_even (y / inject_Z q) * q) / inject_Z ulps).

(** The double nearest to a rational of either sign. *)
Definition binary64 (x : Q) : Q :=
  if Qle_bool 0 x then round_to_double x else (- round_to_double (- x))%Q.

(** The rational is a double. *)
Definition is_double (x : Q) : Prop := (binary64 x == x)%Q.

End Js.

(** ** The route [POST /api/build] *)

Module Route.
Import Js.

(** What [fetch] is called with. The body is the value that the text
    [JSON.stringify] wrote parses to. *)
Record FetchCall : Type := mkFetchCall {
  fc_url : string;
  fc_method : string;
  fc_headers : list (string * string);
  fc_body : json
}.

(** What a fetch settles to: a rejection, or a response with its status and
    what [response.json()] resolves to ([None] when it rejects: the body is
    not JSON). *)
Inductive FetchResult : Type :=
| Rejected
| Responded (status : Z) (body : option json).

Definition Backend : Type := FetchCall -> FetchResult.

(** [response.ok]. *)
Definition ok (status : Z) : bool := (200 <=? status) && (status <=? 299).

Record Request : Type := mkRequest {
  req_body : option json   (* [None]: [request.json()] rejects *)
}.

Record Response : Type := mkResponse {
  status : Z;
  body : json
}.

(** The handler's effects: it may throw, and it calls the backend; the calls
    made so far are logged in order. *)
Definition M (A : Type) : Type :=
  Backend -> list FetchCall -> (exn + A) * list FetchCall.

Definition ret {A} (a : A) : M A := fun _ log => (inr a, log).

Definition throw {A} (e : exn) : M A := fun _ log => (inl e, log).

Definition bind {A B} (m : M A) (k : A -> M B) : M B :=
  fun backend log =>
    match m backend log with
    | (inl e, log') => (inl e, log')
    | (inr a, log') => k a backend log'
    end.

Notation "x <- m ;; k" := (bind m (fun x => k))
  (at level 61, m at next level, right associativity).

Definition lift {A} (r : exn + A) : M A :=
  match r with inl e => throw e | inr a => ret a end.

(** [try { m } catch { return h }]. *)
Definition try_catch {A} (m : M A) (h : A) (backend : Backend) : A * list FetchCall :=
  match m backend [] with
  | (inl _, log) => (h, log)
  | (inr a, log) => (a, log)
  end.

(** [await fetch(url, init)]: the call is logged, then the backend answers. *)
Definition fetch (call : FetchCall) : M (Z * option json) :=
  fun backend log =>
    match backend call with
    | Rejected => (inl FetchError, log ++ [call])
    | Responded st b => (inr (st, b), log ++ [call])
    end.

(** [await r.json()] on a request or a response. *)
Definition json_of (b : option json) : M json :=
  match b with Some v => ret v | None => throw SyntaxError end.

(** The statuses a response must have no body with. *)
Definition null_body_status (st : Z) : bool :=
  (st =? 101) || (st =? 103) || (st =? 204) || (st =? 205) || (st =? 304).

(** [NextResponse.json(body, { status })], the status defaulting to 200. As
    the constructor of [Response] does, it throws on a status outside
    200..599 and on a status that allows no body. The body of the response
    is what [JSON.stringify] wrote. *)
Definition NextResponse_json (b : json) (st : option Z) : exn + Response :=
  let s := match st with Some s => s | None => 200 end in
  if negb ((200 <=? s) && (s <=? 599)) then inl RangeError
  else if null_body_status s then inl TypeError
  else inr (mkResponse s (JSON_stringify b)).

(** [process.env.PYTHON_API_URL || "http://localhost:8000"]. *)
Definition PYTHON_API_URL (env : option string) : string :=
  match env with
  | Some s => if is_empty s then "http://localhost:8000" else s
  | None => "http://localhost:8000"
  end.

Definition build_call (env : option string) (description : value) : FetchCall :=
  mkFetchCall (PYTHON_API_URL env ++ "/build")%string "POST"
    [("Content-Type", "application/json")]
    (JSON_stringify (JObj (object_of [("description", description)]))).

Definition error_body (message : json) : json := JObj [("error", message)].

Definition POST_body (env : option string) (request : Request) : M Response :=
  body <- json_of (req_body request) ;;
  description <- lift (get (Some body) "description") ;;
  if negb (truthy description) then
    lift (NextResponse_json (error_body (JStr "Description is required")) (Some 400))
  else
    response <- fetch (build_call env description) ;;
    let '(st, rbody) := response in
    if negb (ok st) then
      error <- json_of rbody ;;
      detail <- lift (get (Some error) "detail") ;;
      lift (NextResponse_json (error_body (or_else detail (JStr "Build failed"))) (Some st))
    else
      result <- json_of rbody ;;
      lift (NextResponse_json result None).

(** What the [catch] block returns:
    [NextResponse.json({ error: ... }, { status: 500 })]. *)
Definition connect_failure : Response :=
  mkResponse 500 (error_body (JStr "Failed to connect to build server")).

(** The handler: its response and the backend calls it issued. *)
Definition POST (env : option string) (backend : Backend) (request : Request)
  : Response * list FetchCall :=
  try_catch (POST_body env request) connect_failure backend.

(** *** What the statements about the route speak of *)

(** The description a request carries, when its body is an object that has
    one. *)
Definition description_of (request : Request) : value :=
  match req_body request with
  | Some (JObj fields) => assoc "description" fields
  | _ => None
  end.

(** The description is absent or falsy. *)
Definition lacks_description (request : Request) : Prop :=
  truthy (description_of request) = false.

Definition description_required : Response :=
  mkResponse 400 (error_body (JStr "Description is required")).

(** The detail of a backend error, when its body is an object that has one. *)
Definition detail_of (error : json) : value :=
  match error with
  | JObj fields => assoc "detail" fields
  | _ => None
  end.

(** [error.detail || "Build failed"]. *)
Definition detail_or_default (error : json) : json :=
  or_else (detail_of error) (JStr "Build failed").

(** The backend's status with its detail, or [Build failed], as written. *)
Definition relayed_error (st : Z) (error : json) : Response :=
  mkResponse st (JSON_stringify (error_body (detail_or_default error))).

(** A status that a response with a body can have. *)
Definition relayable (st : Z) : bool :=
  (200 <=? st) && (st <=? 599) && negb (null_body_status st).

(** What the route answers to a backend response that is not ok. *)
Definition error_answer (st : Z) (error : json) : Response :=
  match error with
  | JNull => connect_failure
  | _ => if relayable st then relayed_error st error else connect_failure
  end.

(** The call succeeded: the handler answered 200. *)
Definition succeeds (env : option string) (backend : Backend) (request : Request) : Prop :=
  status (fst (POST env backend request)) = 200.

(** A builder that placed 42 blocks in a second and a half. *)
Definition built_backend : Backend :=
  fun _ => Responded 200
    (Some (JObj [("blocks_placed", JNum (Finite 42));
                 ("execution_time", JNum (Finite (3 # 2)))])).

(** A builder that answers ok with an empty object. *)
Definition bare_backend : Backend := fun _ => Responded 200 (Some (JObj [])).

(** What [1e999] parses to. *)
Definition overflowing : json := JNum Infinity.

(** A request whose description is [1e999]. *)
Definition overflowing_request : Request :=
  mkRequest (Some (JObj [("description", overflowing)])).

(** A builder that counts [1e999] blocks. *)
Definition overcounting_backend : Backend :=
  fun _ => Responded 200 (Some (JObj [("blocks_placed", overflowing)])).

(** A builder that refuses with the detail [1e999]. *)
Definition overflowing_refusal : Backend :=
  fun _ => Responded 422 (Some (JObj [("detail", overflowing)])).

(** A gateway in front of a builder that is down: 503 and an HTML page. *)
Definition gateway_backend : Backend := fun _ => Responded 503 None.

End Route.

(** ** The chat component [ChatInterface] *)

Module Chat.
Import Js.
Import Route.

(** Strings are sequences of code units below 256. The pictographs that end
    some of Steve's lines are left out of the texts below. *)

(** [WhiteSpace] and [LineTerminator] below 256: tab, line feed, vertical
    tab, form feed, carriage return, space and no-break space. *)
Definition is_white_space (c : ascii) : bool :=
  let n := Z.of_nat (nat_of_ascii c) in
  ((9 <=? n) && (n <=? 13)) || (n =? 32) || (n =? 160).

Fixpoint trim_start (l : list ascii) : list ascii :=
  match l with
  | c :: rest => if is_white_space c then trim_start rest else l
  | [] => []
  end.

(** [String.prototype.trim]. *)
Definition trim (s : string) : string :=
  string_of_list_ascii
    (rev (trim_start (rev (trim_start (list_ascii_of_string s))))).

Inductive Sender : Type := steve | user.

Inductive Mood : Type := happy | thinking | building | waving.

Inductive MessageId : Type :=
| welcome
| stamp (t : Z).   (* the decimal text of [t] *)

Definition newline : string := String (ascii_of_nat 10) EmptyString.

(** A template literal, piece by piece. *)
Inductive Fragment : Type :=
| Text (s : string)
| Shown (v : value)    (* a value written by string conversion *)
| Fixed1 (n : number). (* [n.toFixed(1)] *)

Record Message : Type := mkMessage {
  id : MessageId;
  content : list Fragment;
  sender : Sender;
  timestamp : Z;
  steveMood : option Mood;
  showFeedback : bool;
  buildDescription : option string
}.

Definition STEVE_GREETINGS : list string :=
  [ "Hey there, Architect! What amazing thing shall we build today?";
    "Hello, friend! I've got my pickaxe ready. What's the plan?";
    "Welcome back! Ready to create something awesome together?" ].

Definition STEVE_BUILDING_MESSAGES : list string :=
  [ "On it! Let me grab my tools...";
    "Great idea! This is going to look awesome!";
    "Ooh, I love building those! Give me a moment..." ].

Definition STEVE_COMPLETE_MESSAGES : list string :=
  [ "Ta-da! Your build is ready! Go check it out!";
    "All done! I hope you like it!";
    "Finished! That was fun to build!" ].

(** [l[Math.floor(rnd * l.length)]], [rnd] being what [Math.random()]
    returned. The product is taken as it is: its rounding to a double,
    which can move the index by one where two lines meet, is left out. *)
Definition pick (l : list string) (rnd : Q) : string :=
  nth (Z.to_nat (Qfloor (rnd * inject_Z (Z.of_nat (List.length l))))) l "".

(** A [handleSend] that is suspended at an [await]: on the fetch (its
    progress interval is armed until the fetch settles), or on the body of
    the response it got. *)
Inductive Suspended : Type :=
| AwaitFetch (buildDescription : string)
| AwaitJson (buildDescription : string) (status : Z) (body : option json).

Record State : Type := mkState {
  messages : list Message;
  input : string;
  isBuilding : bool;
  buildProgress : Q;
  isHydrated : bool;
  pendingFeedback : option (MessageId * string);
  running : list Suspended
}.

Definition initial : State := mkState [] "" false 0 false None [].

Definition setMessages (f : list Message -> list Message) (s : State) : State :=
  mkState (f (messages s)) (input s) (isBuilding s) (buildProgress s)
    (isHydrated s) (pendingFeedback s) (running s).

Definition setInput (v : string) (s : State) : State :=
  mkState (messages s) v (isBuilding s) (buildProgress s)
    (isHydrated s) (pendingFeedback s) (running s).

Definition setIsBuilding (b : bool) (s : State) : State :=
  mkState (messages s) (input s) b (buildProgress s)
    (isHydrated s) (pendingFeedback s) (running s).

Definition setBuildProgress (f : Q -> Q) (s : State) : State :=
  mkState (messages s) (input s) (isBuilding s) (f (buildProgress s))
    (isHydrated s) (pendingFeedback s) (running s).

Definition setIsHydrated (b : bool) (s : State) : State :=
  mkState (messages s) (input s) (isBuilding s) (buildProgress s)
    b (pendingFeedback s) (running s).

Definition setPendingFeedback (p : option (MessageId * string)) (s : State) : State :=
  mkState (messages s) (input s) (isBuilding s) (buildProgress s)
    (isHydrated s) p (running s).

Definition setRunning (r : list Suspended) (s : State) : State :=
  mkState (messages s) (input s) (isBuilding s) (buildProgress s)
    (isHydrated s) (pendingFeedback s) r.

(** The first effect: the welcome message, once. *)
Definition hydrate (now : Z) (rnd : Q) (s : State) : State :=
  if isHydrated s then s
  else
    setMessages (fun _ =>
      [mkMessage welcome [Text (pick STEVE_GREETINGS rnd)] steve now
         (Some waving) false None])
      (setIsHydrated true s).

Definition api_build_call (buildDescription : string) : FetchCall :=
  mkFetchCall "/api/build" "POST" [("Content-Type", "application/json")]
    (JSON_stringify (JObj (object_of [("description", Some (JStr buildDescription))]))).

(** [handleSend] up to its first [await]: the new state and the requests
    issued. [now] is what [Date.now()] reads and [rnd] what [Math.random()]
    returns during the call. *)
Definition handleSend (now : Z) (rnd : Q) (s : State) : State * list FetchCall :=
  if is_empty (trim (input s)) || isBuilding s then (s, [])
  else
    let buildDescription := input s in
    let userMessage :=
      mkMessage (stamp now) [Text (input s)] user now None false None in
    let buildingMessage :=
      mkMessage (stamp (now + 1)) [Text (pick STEVE_BUILDING_MESSAGES rnd)]
        steve now (Some building) false None in
    let s := setMessages (fun prev => prev ++ [userMessage]) s in
    let s := setInput "" s in
    let s := setIsBuilding true s in
    let s := setBuildProgress (fun _ => 0%Q) s in
    let s := setMessages (fun prev => prev ++ [buildingMessage]) s in
    (setRunning (running s ++ [AwaitFetch buildDescription]) s,
     [api_build_call buildDescription]).

(** The updater the progress interval runs every 500 ms: the product and
    the two sums are each rounded to a double. *)
Definition progress_update (rnd : Q) (prev : Q) : Q :=
  if Qle_bool 90 prev then 90%Q   (* Cap at 90% until complete *)
  else binary64 (binary64 (prev + binary64 (rnd * 10)) + 3).

(** [Math.min(buildProgress, 100)], the width of the bar. *)
Definition bar_width (s : State) : Q := Qmin (buildProgress s) 100.

(** [Math.round(Math.min(buildProgress, 100))], the percentage shown. *)
Definition shown_percent (s : State) : Z := Qfloor (bar_width s + (1 # 2)).

(** The [Button] component: [disabled={disabled || isLoading}]. *)
Definition Button_disabled (disabled isLoading : bool) : bool :=
  disabled || isLoading.

(** The Build button as [ChatInterface] renders it. *)
Definition build_button_disabled (s : State) : bool :=
  Button_disabled (is_empty (trim (input s)) || isBuilding s) (isBuilding s).

(** The [finally] block. *)
Definition finish (s : State) : State :=
  setBuildProgress (fun _ => 0%Q) (setIsBuilding false s).

(** The [catch] block (its [clearInterval] is the removal of the suspended
    call from [running]). *)
Definition unreachable_server (now : Z) (s : State) : State :=
  let s := setBuildProgress (fun _ => 0%Q) s in
  let errorMessage :=
    mkMessage (stamp (now + 2))
      [Text "Hmm, I can't reach the build server right now. Make sure the Python API is running!"]
      steve now (Some thinking) false None in
  setMessages (fun prev => prev ++ [errorMessage]) s.

(** The text after a response that is ok; [toFixed] exists on numbers only. *)
Definition complete_content (rnd : Q) (result : json) : exn + list Fragment :=
  match get (Some result) "blocks_placed" with
  | inl e => inl e
  | inr blocks_placed =>
      match get (Some result) "execution_time" with
      | inl e => inl e
      | inr (Some (JNum t)) =>
          inr [ Text (pick STEVE_COMPLETE_MESSAGES rnd);
                Text newline; Text newline;
                Text "Blocks placed: "; Shown blocks_placed; Text newline;
                Text "Time: "; Fixed1 t; Text " seconds" ]
      | inr _ => inl TypeError
      end
  end.

(** The text after a response that is not ok. *)
Definition failure_content (error : json) : exn + list Fragment :=
  match get (Some error) "error" with
  | inl e => inl e
  | inr message =>
      inr [ Text "Oops! Something went wrong...";
            Text newline; Text newline;
            Shown (Some (or_else message
              (JStr "Could not connect to the Minecraft server. Make sure the server is running!"))) ]
  end.

Fixpoint remove_nth {A} (i : nat) (l : list A) : list A :=
  match i, l with
  | _, [] => []
  | O, _ :: rest => rest
  | S j, x :: rest => x :: remove_nth j rest
  end.

Fixpoint replace_nth {A} (i : nat) (y : A) (l : list A) : list A :=
  match i, l with
  | _, [] => []
  | O, _ :: rest => y :: rest
  | S j, x :: rest => x :: replace_nth j y rest
  end.

(** The fetch of the [i]-th suspended [handleSend] settles: on a rejection
    the [catch] and [finally] blocks run; on a response the interval is
    cleared, the progress set to 100 and the body awaited. *)
Definition fetch_settled (i : nat) (r : FetchResult) (now : Z) (s : State) : State :=
  match nth_error (running s) i with
  | Some (AwaitFetch buildDescription) =>
      match r with
      | Rejected =>
          finish (unreachable_server now (setRunning (remove_nth i (running s)) s))
      | Responded st rbody =>
          setBuildProgress (fun _ => 100%Q)
            (setRunning (replace_nth i (AwaitJson buildDescription st rbody) (running s)) s)
      end
  | _ => s
  end.

(** The body of the response the [i]-th suspended [handleSend] got settles:
    the rest of [handleSend] runs. *)
Definition json_settled (i : nat) (now : Z) (rnd : Q) (s : State) : State :=
  match nth_error (running s) i with
  | Some (AwaitJson buildDescription st rbody) =>
      let s := setRunning (remove_nth i (running s)) s in
      let shown : exn + State :=
        match rbody with
        | None => inl SyntaxError
        | Some parsed =>
            if ok st then
              match complete_content rnd parsed with
              | inl e => inl e
              | inr text =>
                  let messageId := stamp (now + 2) in
                  let completeMessage :=
                    mkMessage messageId text steve now (Some happy) true
                      (Some buildDescription) in
                  inr (setPendingFeedback (Some (messageId, buildDescription))
                         (setMessages (fun prev => prev ++ [completeMessage]) s))
              end
            else
              match failure_content parsed with
              | inl e => inl e
              | inr text =>
                  let errorMessage :=
                    mkMessage (stamp (now + 2)) text steve now (Some thinking)
                      false None in
                  inr (setMessages (fun prev => prev ++ [errorMessage]) s)
              end
        end in
      match shown with
      | inr s' => finish s'
      | inl _ => finish (unreachable_server now s)
      end
  | _ => s
  end.

(** The progress interval of a [handleSend] that awaits its fetch fires. *)
Definition tick (rnd : Q) (s : State) : State :=
  if existsb (fun c => match c with AwaitFetch _ => true | AwaitJson _ _ _ => false end)
       (running s)
  then setBuildProgress (progress_update rnd) s
  else s.

(** What happens to the component. Every event is handled on the state the
    events before it left: React renders between two events, so a handler
    closes over the current state. *)
Inductive Event : Type :=
| Hydrate (now : Z) (rnd : Q)
| Change (text : string)                     (* typing into the input *)
| Send (now : Z) (rnd : Q)                   (* Build clicked, or Enter *)
| Tick (rnd : Q)
| FetchSettled (i : nat) (r : FetchResult) (now : Z)
| JsonSettled (i : nat) (now : Z) (rnd : Q).

Definition step (s : State) (e : Event) : State * list FetchCall :=
  match e with
  | Hydrate now rnd => (hydrate now rnd s, [])
  | Change text => (setInput text s, [])
  | Send now rnd => handleSend now rnd s
  | Tick rnd => (tick rnd s, [])
  | FetchSettled i r now => (fetch_settled i r now s, [])
  | JsonSettled i now rnd => (json_settled i now rnd s, [])
  end.

(** The state after a sequence of events and the requests issued on the way. *)
Fixpoint run (s : State) (events : list Event) : State * list FetchCall :=
  match events with
  | [] => (s, [])
  | e :: rest =>
      let '(s1, sent1) := step s e in
      let '(s2, sent2) := run s1 rest in
      (s2, sent1 ++ sent2)
  end.

Inductive reachable : State -> Prop :=
| reachable_initial : reachable initial
| reachable_step s e : reachable s -> reachable (fst (step s e)).

(** A random draw is in the range of [Math.random()]. *)
Definition unit_interval (rnd : Q) : Prop := (0 <= rnd)%Q /\ (rnd < 1)%Q.

(** *** What the statements about the component speak of *)

(** A build is shown as running exactly when a [handleSend] is suspended,
    and at most one is. *)
Definition single_flight (s : State) : Prop :=
  (isBuilding s = true <-> running s <> []) /\ (List.length (running s) <= 1)%nat.

(** The request [handleSend] sends for the input [a cabin]. *)
Definition cabin_request : Request :=
  mkRequest (Some (fc_body (api_build_call "a cabin"))).

(** A state in which a build is in flight. *)
Definition busy_state : State :=
  fst (run initial [Hydrate 0 0; Change "a cabin"; Send 1 0]).

(** Twelve ticks of the progress interval, [Math.random()] returning one
    half each time, while the fetch is pending. *)
Definition twelve_ticks : list Event :=
  [Change "a cabin"; Send 0 0] ++ repeat (Tick (1 # 2)) 12.

(** Eleven such ticks and a twelfth with [Math.random()] returning 0.875. *)
Definition ticks_to_the_top : list Event :=
  [Change "a cabin"; Send 0 0] ++ repeat (Tick (1 # 2)) 11 ++ [Tick (7 # 8)].

End Chat.

(** ** The builder core: ingestor, compiler, scheduler and orchestrator

    The Python builder behind [/build] ([minecraft_builder.py],
    [command_generator.py], [server_interface.py]) is not among the sources
    at hand; the definitions of this module follow the specification of its
    four components. The resume hook of the orchestrator and the progress
    counter of the scheduler are left out. *)

Module Core.

Definition Coord : Type := (Z * Z * Z)%type.
Definition Anchor : Type := Coord.

Definition cx (c : Coord) : Z := fst (fst c).
Definition cy (c : Coord) : Z := snd (fst c).
Definition cz (c : Coord) : Z := snd c.

(** Anchor + relative offset. *)
Definition resolve (anchor : Anchor) (p : Coord) : Coord :=
  (cx anchor + cx p, cy anchor + cy p, cz anchor + cz p).

(** The three variants of an element; every position is relative to the
    anchor, and every element names its phase. *)
Inductive Element : Type :=
| region (material : string) (dimensions position : Coord) (phase : string)
| point (material : string) (position : Coord) (facing : option string)
    (phase : string)
| point_set (material : string) (positions : list Coord)
    (facing : option string) (phase : string).

Definition phase_of (e : Element) : string :=
  match e with
  | region _ _ _ ph => ph
  | point _ _ _ ph => ph
  | point_set _ _ _ ph => ph
  end.

Record Structure : Type := mkStructure {
  width : Z;
  depth : Z;
  height : Z;
  base_material : string;
  roof_material : string
}.

Record Blueprint : Type := mkBlueprint {
  structure : Structure;
  elements : list Element;
  build_order : list string
}.

(** What the oracle hands over: a dimension is [None] when it is absent or
    not an integer. *)
Record RawBlueprint : Type := mkRaw {
  raw_width : option Z;
  raw_depth : option Z;
  raw_height : option Z;
  raw_base_material : string;
  raw_roof_material : string;
  raw_elements : list Element;
  raw_build_order : list string
}.

(** *** Blueprint ingestor *)

Inductive IngestError : Type :=
| InvalidDimensions
| UnknownPhase
| EmptyPointSet.   (* the specification names no error for this rule *)

Definition known_phase (order : list string) (e : Element) : bool :=
  existsb (String.eqb (phase_of e)) order.

Definition populated (e : Element) : bool :=
  match e with
  | point_set _ [] _ _ => false
  | _ => true
  end.

(** Modelled from the spec: the Blueprint Ingestor (section 4.1), whose code
    is missing. The three validations are made in the order the
    specification lists them, which does not say which error is reported
    for an input that breaks several rules. *)
Definition ingest (raw : RawBlueprint) : IngestError + Blueprint :=
  match raw_width raw, raw_depth raw, raw_height raw with
  | Some w, Some d, Some h =>
      if negb ((0 <? w) && (0 <? d) && (0 <? h)) then inl InvalidDimensions
      else if negb (forallb (known_phase (raw_build_order raw)) (raw_elements raw))
      then inl UnknownPhase
      else if negb (forallb populated (raw_elements raw)) then inl EmptyPointSet
      else
        inr (mkBlueprint
               (mkStructure w d h (raw_base_material raw) (raw_roof_material raw))
               (raw_elements raw) (raw_build_order raw))
  | _, _, _ => inl InvalidDimensions
  end.

(** *** Command compiler *)

Inductive Shape : Type :=
| FillOp (corner1 corner2 : Coord) (material : string)
| SetOp (target : Coord) (material : string) (facing : option string).

(** An operation is tagged with its phase, as a position in [build_order],
    and with the elements it comes from, as positions in [elements]. *)
Record CompiledOperation : Type := mkOp {
  shape : Shape;
  op_phase : nat;
  op_sources : list nat
}.

Inductive CompileError : Type :=
| InvalidOperation (element : nat)
| CommandTooLarge (element : nat).

Record Config : Type := mkConfig {
  legal_low : Coord;             (* the legal range of absolute coordinates *)
  legal_high : Coord;
  max_command_length : Z         (* the ceiling on a serialized command *)
}.

(** A box, by two opposite corners, the low one first, both included. *)
Definition Box : Type := (Coord * Coord)%type.

Definition region_box (dimensions position : Coord) : Box :=
  (position,
   (cx position + cx dimensions - 1,
    cy position + cy dimensions - 1,
    cz position + cz dimensions - 1)).

Definition cell (p : Coord) : Box := (p, p).

Definition spans_meet (lo1 hi1 lo2 hi2 : Z) : bool := (lo1 <=? hi2) && (lo2 <=? hi1).

Definition overlaps (a b : Box) : bool :=
  spans_meet (cx (fst a)) (cx (snd a)) (cx (fst b)) (cx (snd b)) &&
  spans_meet (cy (fst a)) (cy (snd a)) (cy (fst b)) (cy (snd b)) &&
  spans_meet (cz (fst a)) (cz (snd a)) (cz (fst b)) (cz (snd b)).

Definition same_span (lo1 hi1 lo2 hi2 : Z) : bool := (lo1 =? lo2) && (hi1 =? hi2).

Definition touching (lo1 hi1 lo2 hi2 : Z) : bool := (lo2 =? hi1 + 1) || (lo1 =? hi2 + 1).

(** Axis-aligned adjacent: the boxes touch along one axis and have the same
    extent along the other two, so that their union is a box. *)
Definition adjacent (a b : Box) : bool :=
  let x := (cx (fst a), cx (snd a), cx (fst b), cx (snd b)) in
  let y := (cy (fst a), cy (snd a), cy (fst b), cy (snd b)) in
  let z := (cz (fst a), cz (snd a), cz (fst b), cz (snd b)) in
  let on (f : Z -> Z -> Z -> Z -> bool) (s : Z * Z * Z * Z) : bool :=
    let '(lo1, hi1, lo2, hi2) := s in f lo1 hi1 lo2 hi2 in
  (on touching x && on same_span y && on same_span z) ||
  (on same_span x && on touching y && on same_span z) ||
  (on same_span x && on same_span y && on touching z).

Definition bounding (a b : Box) : Box :=
  ((Z.min (cx (fst a)) (cx (fst b)), Z.min (cy (fst a)) (cy (fst b)),
    Z.min (cz (fst a)) (cz (fst b))),
   (Z.max (cx (snd a)) (cx (snd b)), Z.max (cy (snd a)) (cy (snd b)),
    Z.max (cz (snd a)) (cz (snd b)))).

(** A merge is safe when the merged box overlaps no footprint of an element
    already scheduled, in this phase or an earlier one. *)
Definition safe (merged : Box) (scheduled : list Box) : bool :=
  negb (existsb (overlaps merged) scheduled).

(** A run of merged regions that has not been emitted yet. *)
Record PendingFill : Type := mkPending {
  pf_material : string;
  pf_box : Box;
  pf_sources : list nat
}.

Definition flush (anchor : Anchor) (k : nat) (pending : option PendingFill)
  : list CompiledOperation :=
  match pending with
  | Some f =>
      [mkOp (FillOp (resolve anchor (fst (pf_box f))) (resolve anchor (snd (pf_box f)))
               (pf_material f)) k (pf_sources f)]
  | None => []
  end.

Definition scheduled_with (pending : option PendingFill) (scheduled : list Box)
  : list Box :=
  match pending with
  | Some f => pf_box f :: scheduled
  | None => scheduled
  end.

(** The elements of one phase, each with its position in the blueprint,
    lowered in insertion order: a region joins the pending run when it has
    the run's material, is adjacent to it and the merge is safe, and starts
    a new run otherwise; a point becomes one [SetOp], a point set one per
    position. The result is the operations and the footprints scheduled:
    the box of a region, the cell of a point, the cells of a point set. *)
Fixpoint lower_phase (anchor : Anchor) (k : nat) (scheduled : list Box)
    (pending : option PendingFill) (es : list (nat * Element))
  : list CompiledOperation * list Box :=
  match es with
  | [] => (flush anchor k pending, scheduled_with pending scheduled)
  | (i, region m dims pos _) :: rest =>
      let b := region_box dims pos in
      match pending with
      | Some f =>
          if String.eqb (pf_material f) m && adjacent (pf_box f) b
             && safe (bounding (pf_box f) b) scheduled
          then
            lower_phase anchor k scheduled
              (Some (mkPending m (bounding (pf_box f) b) (pf_sources f ++ [i]))) rest
          else
            let '(ops, after) :=
              lower_phase anchor k (pf_box f :: scheduled)
                (Some (mkPending m b [i])) rest in
            (flush anchor k pending ++ ops, after)
      | None => lower_phase anchor k scheduled (Some (mkPending m b [i])) rest
      end
  | (i, point m pos facing _) :: rest =>
      let '(ops, after) :=
        lower_phase anchor k (cell pos :: scheduled_with pending scheduled) None rest in
      (flush anchor k pending ++ mkOp (SetOp (resolve anchor pos) m facing) k [i] :: ops,
       after)
  | (i, point_set m positions facing _) :: rest =>
      let '(ops, after) :=
        lower_phase anchor k (map cell positions ++ scheduled_with pending scheduled)
          None rest in
      (flush anchor k pending
         ++ map (fun p => mkOp (SetOp (resolve anchor p) m facing) k [i]) positions
         ++ ops,
       after)
  end.

Definition indexed (es : list Element) : list (nat * Element) :=
  combine (seq 0 (List.length es)) es.

Definition in_phase (tag : string) (es : list (nat * Element)) : list (nat * Element) :=
  filter (fun ie => String.eqb (phase_of (snd ie)) tag) es.

(** The phases of [order], from the [k]-th on, one after the other. *)
Fixpoint lower_phases (anchor : Anchor) (es : list (nat * Element)) (k : nat)
    (scheduled : list Box) (order : list string) : list CompiledOperation :=
  match order with
  | [] => []
  | tag :: later =>
      let '(ops, after) := lower_phase anchor k scheduled None (in_phase tag es) in
      ops ++ lower_phases anchor es (S k) after later
  end.

Definition recognized_facings : list string :=
  ["north"; "south"; "east"; "west"; "up"; "down"].

Definition in_range (cfg : Config) (c : Coord) : bool :=
  (cx (legal_low cfg) <=? cx c) && (cx c <=? cx (legal_high cfg)) &&
  (cy (legal_low cfg) <=? cy c) && (cy c <=? cy (legal_high cfg)) &&
  (cz (legal_low cfg) <=? cz c) && (cz c <=? cz (legal_high cfg)).

Definition valid_shape (cfg : Config) (s : Shape) : bool :=
  match s with
  | FillOp c1 c2 m => in_range cfg c1 && in_range cfg c2 && negb (Js.is_empty m)
  | SetOp c m facing =>
      in_range cfg c && negb (Js.is_empty m) &&
      match facing with
      | Some f => existsb (String.eqb f) recognized_facings
      | None => true
      end
  end.

Definition decimal (z : Z) : string := NilZero.string_of_int (Z.to_int z).

Definition coordinates (c : Coord) : string :=
  (decimal (cx c) ++ " " ++ decimal (cy c) ++ " " ++ decimal (cz c))%string.

(** The two command shapes of the remote channel. *)
Definition serialize (s : Shape) : string :=
  match s with
  | FillOp c1 c2 m =>
      ("/fill " ++ coordinates c1 ++ " " ++ coordinates c2 ++ " " ++ m)%string
  | SetOp c m facing =>
      ("/setblock " ++ coordinates c ++ " " ++ m ++
       match facing with
       | Some f => "[facing=" ++ f ++ "]"
       | None => ""
       end)%string
  end.

Definition check_operation (cfg : Config) (op : CompiledOperation) : option CompileError :=
  if negb (valid_shape cfg (shape op)) then Some (InvalidOperation (hd O (op_sources op)))
  else if max_command_length cfg <? Z.of_nat (String.length (serialize (shape op)))
  then Some (CommandTooLarge (hd O (op_sources op)))
  else None.

Fixpoint check_operations (cfg : Config) (ops : list CompiledOperation)
  : option CompileError :=
  match ops with
  | [] => None
  | op :: rest =>
      match check_operation cfg op with
      | Some e => Some e
      | None => check_operations cfg rest
      end
  end.

(** Modelled from the spec: the Command Compiler (section 4.2), whose code
    is missing: phases in the order of [build_order], regions merged within
    a phase only, positions resolved against the anchor, every operation
    checked for syntax and size. *)
Definition compile (cfg : Config) (bp : Blueprint) (anchor : Anchor)
  : CompileError + list CompiledOperation :=
  let ops := lower_phases anchor (indexed (elements bp)) 0 [] (build_order bp) in
  match check_operations cfg ops with
  | Some e => inl e
  | None => inr ops
  end.

(** *** Dispatch scheduler *)

Inductive Status : Type := pending | sent | acknowledged | failed.

(** What the channel answers to one command: a text that is no error, an
    explicit error for that command, a transport failure (connection reset,
    timeout), or the loss of the channel itself. *)
Inductive Reply : Type :=
| Acknowledgement (text : string)
| Rejection (text : string)
| TransportFailure (what : string)
| ConnectionLost.

Record DispatchRecord : Type := mkRecord {
  operation : CompiledOperation;
  dr_status : Status;
  attempts : nat;
  last_error : option string
}.

(** The remote connection: the answer it gives to its [n]-th command, the
    commands written to it so far, and the time, in milliseconds. *)
Record Channel : Type := mkChannel {
  replies : nat -> Reply;
  wire : list string;
  clock : Z
}.

Definition send (ch : Channel) (op : CompiledOperation) : Reply * Channel :=
  (replies ch (List.length (wire ch)),
   mkChannel (replies ch) (wire ch ++ [serialize (shape op)]) (clock ch)).

Definition wait (ms : Z) (ch : Channel) : Channel :=
  mkChannel (replies ch) (wire ch) (clock ch + ms).

Record Timing : Type := mkTiming {
  rate_limit : Z;      (* the least delay between two sends *)
  backoff : Z          (* the delay before the first retry; it doubles *)
}.

(** The retry bound: a transport failure is retried up to three times. *)
Definition max_retries : nat := 3.

(** The transition table of one operation. *)
Definition on_send (s : Status) : Status :=
  match s with pending => sent | _ => s end.

Definition on_reply (s : Status) (r : Reply) : Status :=
  match s, r with
  | sent, Acknowledgement _ => acknowledged
  | sent, _ => failed
  | _, _ => s
  end.

Definition on_retry (s : Status) : Status :=
  match s with failed => pending | _ => s end.

Definition error_of (r : Reply) : option string :=
  match r with
  | Acknowledgement _ => None
  | Rejection text => Some text
  | TransportFailure what => Some what
  | ConnectionLost => Some "connection lost"
  end.

(** One operation, from a record that is [pending]: it is sent and the
    reply read; a transport failure puts it back to [pending] after the
    backoff while retries are left; every other reply is final. The boolean
    tells whether the channel is still there. *)
Fixpoint attempt (retries_left : nat) (delay : Z) (r : DispatchRecord) (ch : Channel)
  : DispatchRecord * Channel * bool :=
  let '(reply, ch1) := send ch (operation r) in
  let r1 :=
    mkRecord (operation r) (on_reply (on_send (dr_status r)) reply)
      (S (attempts r)) (error_of reply) in
  match reply, retries_left with
  | TransportFailure _, S more =>
      attempt more (2 * delay)
        (mkRecord (operation r1) (on_retry (dr_status r1)) (attempts r1) (last_error r1))
        (wait delay ch1)
  | ConnectionLost, _ => (r1, ch1, false)
  | _, _ => (r1, ch1, true)
  end.

Definition dispatch_operation (t : Timing) (op : CompiledOperation) (ch : Channel)
  : DispatchRecord * Channel * bool :=
  attempt max_retries (backoff t) (mkRecord op pending O None) ch.

(** The pacing before an operation: none before the first command. *)
Definition pace (t : Timing) (ch : Channel) : Channel :=
  match wire ch with
  | [] => ch
  | _ :: _ => wait (rate_limit t) ch
  end.

(** The operations in compiled order, one at a time. When the channel is
    lost the operations of the current phase that are still unsent are
    given up ([lost] is that phase); nothing is rolled back. *)
Fixpoint dispatch_from (t : Timing) (lost : option nat) (ops : list CompiledOperation)
    (ch : Channel) : list DispatchRecord * Channel :=
  match ops with
  | [] => ([], ch)
  | op :: rest =>
      if match lost with Some k => (op_phase op =? k)%nat | None => false end then
        let '(records, ch') := dispatch_from t lost rest ch in
        (mkRecord op failed O (Some "connection lost") :: records, ch')
      else
        let '(r, ch1, alive) := dispatch_operation t op (pace t ch) in
        let '(records, ch') :=
          dispatch_from t (if alive then None else Some (op_phase op)) rest ch1 in
        (r :: records, ch')
  end.

(** Modelled from the spec: the Dispatch Scheduler (section 4.3), whose code
    is missing. *)
Definition dispatch (t : Timing) (ops : list CompiledOperation) (ch : Channel)
  : list DispatchRecord * Channel :=
  dispatch_from t None ops ch.

(** *** Build orchestrator *)

Inductive OrchestrationError : Type :=
| AnalysisFailed
| IngestFailed (e : IngestError)
| CompileFailed (e : CompileError).

Record BuildResult : Type := mkBuildResult {
  total_elements : nat;
  total_operations : nat;
  n_acknowledged : nat;
  n_failed : nat;
  elapsed : Z;
  failures : list DispatchRecord
}.

(** The reasoning service: a raw blueprint, or [None] when the call fails
    or times out. *)
Definition Oracle : Type := string -> Anchor -> option RawBlueprint.

Definition is_acknowledged (r : DispatchRecord) : bool :=
  match dr_status r with acknowledged => true | _ => false end.

Definition is_failed (r : DispatchRecord) : bool :=
  match dr_status r with failed => true | _ => false end.

(** One run of [build]: what it returns, the operations it handed to the
    scheduler, and the channel as it leaves it. *)
Record Run : Type := mkRun {
  outcome : OrchestrationError + BuildResult;
  handed : list CompiledOperation;
  channel : Channel
}.

(** Modelled from the spec: the Build Orchestrator (section 4.4), whose
    code is missing: oracle, ingest, compile, dispatch, and the result put
    together. *)
Definition build (cfg : Config) (t : Timing) (oracle : Oracle) (ch : Channel)
    (description : string) (anchor : Anchor) : Run :=
  match oracle description anchor with
  | None => mkRun (inl AnalysisFailed) [] ch
  | Some raw =>
      match ingest raw with
      | inl e => mkRun (inl (IngestFailed e)) [] ch
      | inr bp =>
          match compile cfg bp anchor with
          | inl e => mkRun (inl (CompileFailed e)) [] ch
          | inr ops =>
              let '(records, ch') := dispatch t ops ch in
              mkRun
                (inr (mkBuildResult (List.length (elements bp)) (List.length ops)
                        (List.length (filter is_acknowledged records))
                        (List.length (filter is_failed records))
                        (clock ch' - clock ch)
                        (filter is_failed records)))
                ops ch'
          end
      end
  end.

(** *** What the statements about the core speak of *)

(** The phases of the operations never go down along the sequence. *)
Definition phases_in_order (ops : list CompiledOperation) : Prop :=
  StronglySorted le (map op_phase ops).

(** The operations of phase [k], in the order they have in the sequence. *)
Definition of_phase (k : nat) (ops : list CompiledOperation) : list CompiledOperation :=
  filter (fun op => (op_phase op =? k)%nat) ops.

(** Within each phase the source elements of the operations, read along
    the sequence, never go back in the blueprint. *)
Definition insertion_order_kept (ops : list CompiledOperation) : Prop :=
  forall k, StronglySorted le (flat_map op_sources (of_phase k ops)).

(** The phase of an operation is an entry of [build_order], and it is the
    phase tag of every element the operation comes from. *)
Definition tagged_by (bp : Blueprint) (ops : list CompiledOperation) : Prop :=
  Forall (fun op =>
    exists tag,
      nth_error (build_order bp) (op_phase op) = Some tag /\
      Forall (fun i =>
        exists e, nth_error (elements bp) i = Some e /\ phase_of e = tag)
        (op_sources op)) ops.

(** The spec's scenario: a 10 x 10 x 4 cabin, one region of oak planks. *)
Definition cabin : RawBlueprint :=
  mkRaw (Some 10) (Some 10) (Some 4) "oak_planks" "oak_planks"
    [region "oak_planks" (10, 4, 10) (0, 0, 0) "walls"] ["walls"].

(** Walls in two halves, a roof, and windows given between them. *)
Definition house : Blueprint :=
  mkBlueprint (mkStructure 10 10 4 "oak_planks" "dark_oak_stairs")
    [ region "oak_planks" (5, 4, 10) (0, 0, 0) "walls";
      point_set "glass_pane" [(2, 2, 0); (7, 2, 0)] None "windows";
      region "oak_planks" (5, 4, 10) (5, 0, 0) "walls";
      point "oak_door" (5, 1, 0) (Some "south") "door";
      region "dark_oak_stairs" (10, 1, 10) (0, 4, 0) "roof" ]
    ["walls"; "roof"; "door"; "windows"].

(** A blueprint with an orientation that is none of the six. *)
Definition crooked : RawBlueprint :=
  mkRaw (Some 10) (Some 10) (Some 4) "oak_planks" "oak_planks"
    [point "oak_door" (5, 1, 0) (Some "sideways") "door"] ["door"].

(** A blueprint with a roof and no roof phase. *)
Definition roofless : RawBlueprint :=
  mkRaw (Some 10) (Some 10) (Some 4) "oak_planks" "oak_planks"
    [region "dark_oak_stairs" (10, 1, 10) (0, 4, 0) "roof"] ["walls"].

Definition overworld : Config :=
  mkConfig (-30000000, -64, -30000000) (30000000, 319, 30000000) 32000.

Definition steady : Timing := mkTiming 100 50.

(** A channel that times out three times and acknowledges from then on. *)
Definition flaky : Channel :=
  mkChannel
    (fun n => if (n <? 3)%nat then TransportFailure "timeout" else Acknowledgement "ok")
    [] 0.

Definition one_block : CompiledOperation :=
  mkOp (SetOp (0, 64, 0) "stone" None) 0 [O].

(** The sources an element contributes: one per operation it lowers to,
    once the merged regions are counted through their fill. *)
Definition emitted (ie : nat * Element) : list nat :=
  match snd ie with
  | point_set _ positions _ _ => repeat (fst ie) (List.length positions)
  | _ => [fst ie]
  end.

Definition pending_sources (pending : option PendingFill) : list nat :=
  match pending with
  | Some f => pf_sources f
  | None => []
  end.

(** The channel after a send and the wait that follows a failure. *)
Definition sent_and_waited (delay : Z) (ch : Channel) (op : CompiledOperation) : Channel :=
  wait delay (snd (send ch op)).

End Core.

(** ** The feedback card and the feedback handlers of [ChatInterface] *)

Module Feedback.
Import Js.
Import Route.
Import Chat.

(** The state of one [FeedbackCard]. A rating is a number of stars; the
    card only ever sets one of [1, 2, 3, 4, 5]. *)
Record Card : Type := mkCard {
  rating : option Z;
  comment : string;
  submitted : bool
}.

Definition new_card : Card := mkCard None "" false.

Definition STARS : list Z := [1; 2; 3; 4; 5].

Definition setRating (star : Z) (c : Card) : Card :=
  mkCard (Some star) (comment c) (submitted c).

Definition setComment (text : string) (c : Card) : Card :=
  mkCard (rating c) text (submitted c).

Definition setSubmitted (b : bool) (c : Card) : Card :=
  mkCard (rating c) (comment c) b.

(** What a card asks of its parent. *)
Inductive Callback : Type :=
| OnSubmit (rating : Z) (comment : string)
| OnDismiss.

(** [handleSubmit] of the card: the call of [onSubmit] it makes, if any,
    and the card after it. *)
Definition handleSubmit (c : Card) : option Callback * Card :=
  match rating c with
  | Some r => (Some (OnSubmit r (comment c)), setSubmitted true c)
  | None => (None, c)
  end.

(** [rating !== null && star <= rating]: the star is gold. *)
Definition star_lit (c : Card) (star : Z) : bool :=
  match rating c with
  | Some r => star <=? r
  | None => false
  end.

(** The line under the stars (its pictograph, if it has one, left out). *)
Definition rating_label (c : Card) : option string :=
  match rating c with
  | Some 1 => Some "Needs work"
  | Some 2 => Some "Could be better"
  | Some 3 => Some "It's okay"
  | Some 4 => Some "Pretty good!"
  | Some 5 => Some "Amazing!"
  | _ => None
  end.

(** [disabled={rating === null}] on the Submit button. *)
Definition submit_disabled (c : Card) : bool :=
  match rating c with
  | Some _ => false
  | None => true
  end.

(** What the card renders: the thanks once submitted, the form before. *)
Inductive CardView : Type :=
| Thanks
| Form (stars : list bool) (label : option string) (comment : string)
    (submit_off : bool).

Definition render_card (c : Card) : CardView :=
  if submitted c then Thanks
  else Form (map (star_lit c) STARS) (rating_label c) (comment c) (submit_disabled c).

(** What the user does to a card. Nothing of the form is there once the
    card shows its thanks, and a disabled button takes no click. *)
Inductive CardEvent : Type :=
| ClickStar (star : Z)
| EditComment (text : string)
| ClickSubmit
| ClickSkip.

Definition card_step (c : Card) (e : CardEvent) : option Callback * Card :=
  if submitted c then (None, c)
  else
    match e with
    | ClickStar star => (None, setRating star c)
    | EditComment text => (None, setComment text c)
    | ClickSubmit => if submit_disabled c then (None, c) else handleSubmit c
    | ClickSkip => (Some OnDismiss, c)
    end.

(** The stars a click can come from. *)
Definition card_event_ok (e : CardEvent) : Prop :=
  match e with
  | ClickStar star => In star STARS
  | _ => True
  end.

Inductive card_reachable : Card -> Prop :=
| card_new : card_reachable new_card
| card_next c e :
    card_reachable c -> card_event_ok e -> card_reachable (snd (card_step c e)).

(** What [localStorage.getItem("buildFeedback")] returns: [null], the empty
    text, a text that is not JSON, or the text of a JSON value. *)
Inductive StoredText : Type :=
| NoItem
| EmptyText
| NotJson
| JsonText (v : json).

(** [JSON.parse(localStorage.getItem("buildFeedback") || "[]")]. *)
Definition parse_stored (t : StoredText) : exn + json :=
  match t with
  | NoItem => inr (JArr [])
  | EmptyText => inr (JArr [])
  | NotJson => inl SyntaxError
  | JsonText v => inr v
  end.

(** [existingFeedback.push(feedback)]: only an array has [push]. *)
Definition push (existing feedback : json) : exn + json :=
  match existing with
  | JArr items => inr (JArr (items ++ [feedback]))
  | _ => inl TypeError
  end.

(** [responseMessages[rating]], the pictographs left out. *)
Definition responseMessages (rating : Z) : option string :=
  match rating with
  | 1 => Some "I'm sorry it didn't turn out well. I'll try harder next time!"
  | 2 => Some "Thanks for letting me know. I'll work on improving!"
  | 3 => Some "Good to know! I'll keep practicing."
  | 4 => Some "Yay! Glad you liked it!"
  | 5 => Some "Woohoo! That makes me so happy!"
  | _ => None
  end.

Definition MessageId_eqb (a b : MessageId) : bool :=
  match a, b with
  | welcome, welcome => true
  | stamp t, stamp u => t =? u
  | _, _ => false
  end.

(** [msg.id === id ? { ...msg, showFeedback: false } : msg]. *)
Definition hide_card (pid : MessageId) (msg : Message) : Message :=
  if MessageId_eqb (id msg) pid then
    mkMessage (id msg) (content msg) (sender msg) (timestamp msg) (steveMood msg)
      false (buildDescription msg)
  else msg.

Definition feedback_entry (description : string) (rating : Z) (comment iso : string)
  : json :=
  JObj [ ("buildDescription", JStr description);
         ("rating", JNum (Finite (inject_Z rating)));
         ("comment", JStr comment);
         ("timestamp", JStr iso) ].

(** [handleFeedbackSubmit(rating, comment)] on the state and the storage;
    [iso] is what [new Date().toISOString()] returns. When reading the
    storage throws, the promise of the handler rejects and nothing that
    follows is done. The storage is taken to accept what is written. *)
Definition handleFeedbackSubmit (rating : Z) (comment : string) (now : Z) (iso : string)
    (s : State) (store : StoredText) : State * StoredText :=
  match pendingFeedback s with
  | None => (s, store)
  | Some (pid, description) =>
      let feedback := feedback_entry description rating comment iso in
      match parse_stored store with
      | inl _ => (s, store)
      | inr existingFeedback =>
          match push existingFeedback feedback with
          | inl _ => (s, store)
          | inr updated =>
              let feedbackResponse :=
                mkMessage (stamp now)
                  (match responseMessages rating with
                   | Some text => [Text text]
                   | None => [Shown None]
                   end)
                  steve now (Some (if 4 <=? rating then happy else thinking))
                  false None in
              let s := setMessages (fun prev => prev ++ [feedbackResponse]) s in
              let s := setPendingFeedback None s in
              let s := setMessages (fun prev => map (hide_card pid) prev) s in
              (s, JsonText (JSON_stringify updated))
          end
      end
  end.

(** [handleFeedbackDismiss]. *)
Definition handleFeedbackDismiss (s : State) : State :=
  match pendingFeedback s with
  | Some (pid, _) =>
      setPendingFeedback None (setMessages (fun prev => map (hide_card pid) prev) s)
  | None => s
  end.

(** [message.showFeedback && message.buildDescription]: the card of the
    message is rendered. *)
Definition card_shown (msg : Message) : bool :=
  showFeedback msg &&
  match buildDescription msg with
  | Some d => negb (is_empty d)
  | None => false
  end.


(** The stars that are gold. *)
Definition lit_stars (c : Card) : nat :=
  List.length (filter (fun lit : bool => lit) (map (star_lit c) STARS)).

(** A state after a build that succeeded: its feedback is pending. *)
Definition rated_state : State :=
  fst (Chat.run initial
         [Hydrate 0 0; Change "a cabin"; Send 0 0;
          FetchSettled 0 (Responded 200
            (Some (JObj [("blocks_placed", JNum (Finite 42));
                         ("execution_time", JNum (Finite (3 # 2)))]))) 5;
          JsonSettled 0 6 0]).

(** A click on Submit in a card, end to end: [handleSubmit] of the card,
    then the handler of the parent it calls. *)
Definition submit_from_card (c : Card) (now : Z) (iso : string) (s : State)
    (store : StoredText) : Card * State * StoredText :=
  match handleSubmit c with
  | (Some (OnSubmit r text), c') =>
      let '(s', store') := handleFeedbackSubmit r text now iso s store in
      (c', s', store')
  | (_, c') => (c', s, store)
  end.

End Feedback.

(** ** The whole component: every handler, and what it renders *)

Module Page.
Import Js.
Import Route.
Import Chat.
Import Feedback.

Record Page : Type := mkPage {
  chat : State;
  store : StoredText
}.

(** [handleKeyDown]: Enter without Shift sends. *)
Definition handleKeyDown (key : string) (shiftKey : bool) (now : Z) (rnd : Q) (s : State)
  : State * list FetchCall :=
  if String.eqb key "Enter" && negb shiftKey then handleSend now rnd s
  else (s, []).

Inductive Event : Type :=
| Base (e : Chat.Event)
| KeyDown (key : string) (shiftKey : bool) (now : Z) (rnd : Q)
| FeedbackSubmit (rating : Z) (comment : string) (now : Z) (iso : string)
| FeedbackDismiss.

Definition step (p : Page) (e : Event) : Page * list FetchCall :=
  match e with
  | Base e =>
      let '(s, sent) := Chat.step (chat p) e in (mkPage s (store p), sent)
  | KeyDown key shiftKey now rnd =>
      let '(s, sent) := handleKeyDown key shiftKey now rnd (chat p) in
      (mkPage s (store p), sent)
  | FeedbackSubmit rating text now iso =>
      let '(s, st) := handleFeedbackSubmit rating text now iso (chat p) (store p) in
      (mkPage s st, [])
  | FeedbackDismiss => (mkPage (handleFeedbackDismiss (chat p)) (store p), [])
  end.

(** The random draws of an event are in the range of [Math.random()], and
    a rating comes from a star. *)
Definition fair (e : Event) : Prop :=
  match e with
  | Base (Hydrate _ rnd) => unit_interval rnd
  | Base (Send _ rnd) => unit_interval rnd
  | Base (Tick rnd) => unit_interval rnd
  | Base (JsonSettled _ _ rnd) => unit_interval rnd
  | Base _ => True
  | KeyDown _ _ _ rnd => unit_interval rnd
  | FeedbackSubmit rating _ _ _ => In rating STARS
  | FeedbackDismiss => True
  end.

(** The pages the component can be in, whatever the storage held at first. *)
Inductive reachable : Page -> Prop :=
| reachable_start st : reachable (mkPage initial st)
| reachable_next p e : reachable p -> fair e -> reachable (fst (step p e)).

(** [SteveAvatar]: the dots show when he thinks, the pickaxe when he builds. *)
Definition SteveAvatar_dots (mood : Mood) : bool :=
  match mood with thinking => true | _ => false end.

Definition SteveAvatar_pickaxe (mood : Mood) : bool :=
  match mood with building => true | _ => false end.

(** [ChatBubble]: the avatar of a bubble, if it has one, with its mood;
    [isTyping] is never passed by [ChatInterface]. *)
Definition ChatBubble_avatar (msg : Message) : option Mood :=
  match sender msg with
  | steve => Some (match steveMood msg with Some m => m | None => happy end)
  | user => None
  end.

(** What [ChatInterface] renders. *)
Record View : Type := mkView {
  header_mood : Mood;
  header_animated : bool;
  subtitle : string;
  status_label : string;
  progress_bar : option (Q * Z);     (* the width and the percentage *)
  bubbles : list (option Mood * list Fragment * bool);  (* avatar, text, card *)
  input_value : string;
  input_disabled : bool;
  button_disabled : bool;
  button_spinner : bool;             (* [Button] shows its spinner *)
  button_label : string
}.

Definition render (s : State) : View :=
  mkView
    (if isBuilding s then building else happy)
    (isBuilding s)
    (if isBuilding s then "Building your creation..." else "Ready to build!")
    (if isBuilding s then "Building" else "Online")
    (if isBuilding s then Some (bar_width s, shown_percent s) else None)
    (map (fun msg => (ChatBubble_avatar msg, content msg, card_shown msg)) (messages s))
    (input s)
    (isBuilding s)
    (build_button_disabled s)
    (isBuilding s)
    (if isBuilding s then "Building..." else "Build!").

(** The progress after the interval has fired with the given draws. *)
Definition after_ticks (draws : list Q) (p : Q) : Q :=
  fold_left (fun prev rnd => progress_update rnd prev) draws p.

(** A message as the history keeps it, the flag of its card apart. *)
Definition without_card (msg : Message) : Message :=
  mkMessage (id msg) (content msg) (sender msg) (timestamp msg) (steveMood msg)
    false (buildDescription msg).

(** The input has a character that [trim] keeps. *)
Definition has_text (s : string) : Prop :=
  exists c, In c (list_ascii_of_string s) /\ is_white_space c = false.



(** The progress is a double in range, and is 0 when no build is shown as
    running. *)
Definition progress_ok (s : State) : Prop :=
  (0 <= buildProgress s)%Q /\ (buildProgress s < 103)%Q /\
  (isBuilding s = false -> (buildProgress s == 0)%Q) /\
  is_double (buildProgress s).

(** The suspended call awaits its fetch: its progress interval is armed. *)
Definition awaits_fetch (c : Suspended) : bool :=
  match c with
  | AwaitFetch _ => true
  | AwaitJson _ _ _ => false
  end.

(** The result of a build has an [execution_time] that is a number, so
    that [toFixed] can be called on it. *)
Definition numeric_time (result : json) : bool :=
  match get (Some result) "execution_time" with
  | inr (Some (JNum _)) => true
  | _ => false
  end.

(** The message of the [catch] block of [handleSend]. *)
Definition unreachable_message (now : Z) : Message :=
  mkMessage (stamp (now + 2))
    [Text "Hmm, I can't reach the build server right now. Make sure the Python API is running!"]
    steve now (Some thinking) false None.


(** An answer of the route that reports a failure: its status is not ok,
    and its body has the one field [error], holding a truthy message as
    [JSON.stringify] wrote it; what was written is falsy exactly when the
    message is an infinity. *)
Definition reports_failure (answer : Response) : Prop :=
  ok (status answer) = false /\
  exists message,
    truthy (Some message) = true /\
    body answer = error_body (JSON_stringify message) /\
    (truthy (Some (JSON_stringify message)) = false <-> unwritable message).


(** A state in which a build awaits its fetch, after three ticks. *)
Definition awaiting_state : State :=
  fst (Chat.run initial
         [Change "a cabin"; Send 0 0; Tick (1 # 2); Tick (1 # 4); Tick (3 # 4)]).

(** A state in which the body of an ok response with no time is awaited. *)
Definition timeless_state : State :=
  fst (Chat.run initial
         [Change "a cabin"; Send 0 0;
          FetchSettled 0
            (Responded 200 (Some (JObj [("blocks_placed", JNum (Finite 42))]))) 5]).

(** The later history keeps the earlier one: the messages that were there
    are still there, in order, with at most their card switched off, and
    some messages may have been added. *)
Definition keeps_history (before after : list Message) : Prop :=
  exists kept added,
    after = kept ++ added /\
    Forall2 (fun m m' =>
      without_card m' = without_card m /\
      (showFeedback m' = true -> showFeedback m = true)) before kept.

(** A page on which a build was started and the interval fired once,
    drawing 0.4. *)
Definition ticked_page : Page :=
  fst (step (fst (step (fst (step (mkPage initial NoItem)
    (Base (Change "a cabin")))) (Base (Send 0 0)))) (Base (Tick (2 # 5)))).

End Page.

(** * Numbers: what [JSON.stringify] writes, and how sums are rounded *)

Section NumberFacts.
Import Js.

(** Induction on a JSON value, through its items and its fields. *)
Lemma json_nested_ind (P : json -> Prop) :
  P JNull -> (forall b, P (JBool b)) -> (forall n, P (JNum n)) ->
  (forall s, P (JStr s)) ->
  (forall items, Forall P items -> P (JArr items)) ->
  (forall fields, Forall (fun kv => P (snd kv)) fields -> P (JObj fields)) ->
  forall v, P v.
Proof.
  intros Hnull Hbool Hnum Hstr Harr Hobj.
  fix IH 1. intros [| b | n | s | items | fields].
  - exact Hnull.
  - apply Hbool.
  - apply Hnum.
  - apply Hstr.
  - apply Harr. induction items as [| v items IHitems]; constructor;
      [apply IH | exact IHitems].
  - apply Hobj. induction fields as [| [k v] fields IHfields]; constructor;
      [apply IH | exact IHfields].
Qed.

(** A value is written as it is exactly when all its numbers are finite
    and none is the negative zero. *)
Lemma JSON_stringify_round_trips v :
  round_trips v = true <-> JSON_stringify v = v.
Proof.
  induction v as [| b | n | s | items IH | fields IH] using json_nested_ind;
    try (split; reflexivity).
  - destruct n; cbn; split; (reflexivity || discriminate).
  - cbn [round_trips JSON_stringify].
    assert (H : forallb round_trips items = true <-> map JSON_stringify items = items).
    { induction IH as [| v items Hv _ IHitems]; cbn; [tauto |].
      rewrite andb_true_iff, Hv, IHitems. split.
      - intros [-> ->]. reflexivity.
      - intros E. injection E as E1 E2. now split. }
    rewrite H. split; [now intros -> | intros E; now injection E].
  - cbn [round_trips JSON_stringify].
    assert (H : forallb (fun kv => round_trips (snd kv)) fields = true <->
                map (fun kv => (fst kv, JSON_stringify (snd kv))) fields = fields).
    { induction IH as [| [k v] fields Hv _ IHfields]; cbn; [tauto |].
      cbn in Hv. rewrite andb_true_iff, Hv, IHfields. split.
      - intros [-> ->]. reflexivity.
      - intros E. injection E as E1 E2. now split. }
    rewrite H. split; [now intros -> | intros E; now injection E].
Qed.

Lemma assoc_stringify k fields :
  assoc k (map (fun kv => (fst kv, JSON_stringify (snd kv))) fields) =
  option_map JSON_stringify (assoc k fields).
Proof.
  induction fields as [| [k' v] fields IH]; cbn; [reflexivity |].
  destruct (String.eqb k k'); [reflexivity | exact IH].
Qed.

(** Writing a value neither drops nor adds a field. *)
Lemma has_field_stringify v k : has_field (JSON_stringify v) k <-> has_field v k.
Proof.
  destruct v as [| b | [q | | |] | s | items | fields]; cbn; try tauto.
  rewrite assoc_stringify. destruct (assoc k fields); cbn; split; congruence.
Qed.

Lemma round_trips_field fields k v :
  round_trips (JObj fields) = true -> assoc k fields = Some v -> round_trips v = true.
Proof.
  cbn. induction fields as [| [k' w] fields IH]; cbn; [discriminate |].
  rewrite andb_true_iff. intros [Hw Hrest].
  destruct (String.eqb k k'); [intros E; injection E as <-; exact Hw | now apply IH].
Qed.

(** A truthy value is written as a falsy one exactly when it is an
    infinity, which is written as [null]. *)
Lemma truthy_stringify v :
  truthy (Some v) = true ->
  (truthy (Some (JSON_stringify v)) = false <-> unwritable v).
Proof.
  unfold unwritable.
  destruct v as [| b | [q | | |] | s | items | fields]; cbn; intros Ht;
    try discriminate Ht;
    split; try tauto; try congruence;
    intros [H | H]; discriminate H.
Qed.

Lemma round_half_even_cases x :
  round_half_even x = Qfloor x \/ round_half_even x = Qfloor x + 1.
Proof.
  unfold round_half_even.
  destruct (x - inject_Z (Qfloor x) ?= 1 # 2)%Q; try destruct (Z.even (Qfloor x)); tauto.
Qed.

Lemma round_half_even_Z n : round_half_even (inject_Z n) = n.
Proof.
  unfold round_half_even. rewrite Qfloor_Z.
  destruct (Qcompare_spec (inject_Z n - inject_Z n) (1 # 2)) as [H | H | H];
    [exfalso; lra | reflexivity | exfalso; lra].
Qed.

Lemma round_half_even_le a b : (a <= b)%Q -> round_half_even a <= round_half_even b.
Proof.
  intros Hab. pose proof (Qfloor_resp_le a b Hab) as Hf.
  destruct (Z.eq_dec (Qfloor a) (Qfloor b)) as [E | N].
  - unfold round_half_even. rewrite E.
    destruct (Qcompare_spec (a - inject_Z (Qfloor b)) (1 # 2)) as [Ha | Ha | Ha];
      destruct (Qcompare_spec (b - inject_Z (Qfloor b)) (1 # 2)) as [Hb | Hb | Hb];
      try destruct (Z.even (Qfloor b)); try lia; exfalso; lra.
  - destruct (round_half_even_cases a) as [-> | ->];
      destruct (round_half_even_cases b) as [-> | ->]; lia.
Qed.

Lemma round_half_even_eq a b : (a == b)%Q -> round_half_even a = round_half_even b.
Proof.
  intros E. apply Z.le_antisymm; apply round_half_even_le; lra.
Qed.

Lemma ulps_pos : (0 < inject_Z ulps)%Q.
Proof. reflexivity. Qed.

(** The position of the leading bit, in units of the smallest double, for
    a rational that is not negative: at least 52, and the rational is below
    the next power of two. *)
Lemma spacing_spec y :
  (0 <= y)%Q ->
  let L := Z.max (Z.log2 (Qfloor y)) 52 in
  spacing y = 2 ^ (L - 52) /\ 52 <= L /\ (y < inject_Z (2 ^ (L + 1)))%Q /\
  (52 < L -> (inject_Z (2 ^ L) <= y)%Q).
Proof.
  intros Hy L. split; [reflexivity |]. split; [lia |].
  assert (Hn : 0 <= Qfloor y).
  { change 0 with (Qfloor 0). now apply Qfloor_resp_le. }
  pose proof (Qlt_floor y) as Hlt. pose proof (Qfloor_le y) as Hle.
  split.
  - apply Qlt_le_trans with (1 := Hlt). rewrite <- Zle_Qle.
    destruct (Z.eq_dec (Qfloor y) 0) as [E | N].
    + rewrite E. apply (Z.pow_le_mono_r 2 0 (L + 1)); lia.
    + pose proof (Z.log2_spec (Qfloor y) ltac:(lia)) as [_ Hup].
      assert (2 ^ Z.succ (Z.log2 (Qfloor y)) <= 2 ^ (L + 1))
        by (apply Z.pow_le_mono_r; lia).
      lia.
  - intros HL. assert (E : L = Z.log2 (Qfloor y)) by lia.
    assert (Hp : 0 < Qfloor y).
    { destruct (Z.eq_dec (Qfloor y) 0) as [Z0 | N]; [| lia].
      rewrite Z0 in E. cbn in E. lia. }
    pose proof (Z.log2_spec (Qfloor y) Hp) as [Hlo _].
    rewrite E. apply Qle_trans with (2 := Hle). now rewrite <- Zle_Qle.
Qed.


Lemma round_half_even_div_le y q c :
  0 < q -> (y <= inject_Z (c * q))%Q -> round_half_even (y / inject_Z q) <= c.
Proof.
  intros Hq H. rewrite <- (round_half_even_Z c). apply round_half_even_le.
  apply Qle_shift_div_r; [now rewrite <- (Zlt_Qlt 0) |].
  now rewrite <- inject_Z_mult.
Qed.

Lemma round_half_even_div_ge y q c :
  0 < q -> (inject_Z (c * q) <= y)%Q -> c <= round_half_even (y / inject_Z q).
Proof.
  intros Hq H. rewrite <- (round_half_even_Z c) at 1. apply round_half_even_le.
  apply Qle_shift_div_l; [now rewrite <- (Zlt_Qlt 0) |].
  now rewrite <- inject_Z_mult.
Qed.

(** The significand [round_to_double] computes is at most 2^53. *)
Lemma significand_range y :
  (0 <= y)%Q ->
  0 <= round_half_even (y / inject_Z (spacing y)) <= 2 ^ 53.
Proof.
  intros Hy. destruct (spacing_spec y Hy) as [Hq [HL [Hup _]]].
  set (L := Z.max (Z.log2 (Qfloor y)) 52) in *.
  assert (Hpos : 0 < spacing y) by (rewrite Hq; apply Z.pow_pos_nonneg; lia).
  split.
  - apply round_half_even_div_ge; [exact Hpos |]. cbn. exact Hy.
  - apply round_half_even_div_le; [exact Hpos |].
    rewrite Hq, <- Z.pow_add_r by lia. replace (53 + (L - 52)) with (L + 1) by lia.
    now apply Qlt_le_weak.
Qed.

Lemma round_to_double_eq x :
  (round_to_double x ==
   inject_Z (round_half_even (x * inject_Z ulps / inject_Z (spacing (x * inject_Z ulps)))
             * spacing (x * inject_Z ulps)) / inject_Z ulps)%Q.
Proof. unfold round_to_double. apply Qred_correct. Qed.

Lemma scaled_le x x' : (x <= x')%Q -> (x * inject_Z ulps <= x' * inject_Z ulps)%Q.
Proof. intros H. apply Qmult_le_compat_r; [exact H | discriminate]. Qed.

Lemma scaled_nonneg x : (0 <= x)%Q -> (0 <= x * inject_Z ulps)%Q.
Proof. intros H. apply Qmult_le_0_compat; [exact H | discriminate]. Qed.

Lemma over_ulps_le a b : a <= b -> (inject_Z a / inject_Z ulps <= inject_Z b / inject_Z ulps)%Q.
Proof.
  intros H. apply Qmult_le_compat_r; [now rewrite <- Zle_Qle | discriminate].
Qed.

(** Rounding keeps the order. *)
Lemma round_to_double_le x x' :
  (0 <= x)%Q -> (x <= x')%Q -> (round_to_double x <= round_to_double x')%Q.
Proof.
  intros H0 Hle. rewrite !round_to_double_eq. apply over_ulps_le.
  pose proof (scaled_nonneg x H0) as Hy.
  pose proof (scaled_le x x' Hle) as Hyy.
  set (y := (x * inject_Z ulps)%Q) in *. set (y' := (x' * inject_Z ulps)%Q) in *.
  assert (Hy' : (0 <= y')%Q) by lra.
  destruct (spacing_spec y Hy) as [Hq [HL [Hup _]]].
  destruct (spacing_spec y' Hy') as [Hq' [HL' [_ Hlow']]].
  set (L := Z.max (Z.log2 (Qfloor y)) 52) in *.
  set (L' := Z.max (Z.log2 (Qfloor y')) 52) in *.
  assert (HLL : L <= L').
  { subst L L'. pose proof (Z.log2_le_mono _ _ (Qfloor_resp_le y y' Hyy)). lia. }
  assert (Hpos : 0 < spacing y) by (rewrite Hq; apply Z.pow_pos_nonneg; lia).
  assert (Hpos' : 0 < spacing y') by (rewrite Hq'; apply Z.pow_pos_nonneg; lia).
  destruct (Z.eq_dec L L') as [E | N].
  - assert (Hsame : spacing y' = spacing y) by (rewrite Hq, Hq', E; reflexivity).
    rewrite Hsame. apply Z.mul_le_mono_nonneg_r; [lia |].
    apply round_half_even_le. apply Qmult_le_compat_r; [exact Hyy |].
    apply Qinv_le_0_compat. rewrite <- (Zle_Qle 0). lia.
  - assert (Hbig : 52 < L') by lia.
    apply Z.le_trans with (2 ^ L').
    + assert (Hm : round_half_even (y / inject_Z (spacing y)) <= 2 ^ (L' - L + 52)).
      { apply round_half_even_div_le; [exact Hpos |].
        rewrite Hq, <- Z.pow_add_r by lia. replace (L' - L + 52 + (L - 52)) with L' by lia.
        apply Qle_trans with (inject_Z (2 ^ (L + 1))); [now apply Qlt_le_weak |].
        rewrite <- Zle_Qle. apply Z.pow_le_mono_r; lia. }
      replace (2 ^ L') with (2 ^ (L' - L + 52) * spacing y)
        by (rewrite Hq, <- Z.pow_add_r by lia; f_equal; lia).
      apply Z.mul_le_mono_nonneg_r; [lia | exact Hm].
    + assert (Hm : 2 ^ 52 <= round_half_even (y' / inject_Z (spacing y'))).
      { apply round_half_even_div_ge; [exact Hpos' |].
        rewrite Hq', <- Z.pow_add_r by lia. replace (52 + (L' - 52)) with L' by lia.
        now apply Hlow'. }
      replace (2 ^ L') with (2 ^ 52 * spacing y')
        by (rewrite Hq', <- Z.pow_add_r by lia; f_equal; lia).
      apply Z.mul_le_mono_nonneg_r; [lia | exact Hm].
Qed.

Lemma round_to_double_comp x x' :
  (0 <= x)%Q -> (x == x')%Q -> (round_to_double x == round_to_double x')%Q.
Proof.
  intros H0 E. apply Qle_antisym; apply round_to_double_le; lra.
Qed.

(** A number with a significand of at most 53 bits, in units of the
    smallest double, is a double: rounding leaves it as it is. *)
Lemma round_to_double_exact m k :
  0 <= m <= 2 ^ 53 -> 0 <= k ->
  (round_to_double (inject_Z (m * 2 ^ k) / inject_Z ulps) ==
   inject_Z (m * 2 ^ k) / inject_Z ulps)%Q.
Proof.
  intros Hm Hk. rewrite round_to_double_eq.
  assert (Hy : (inject_Z (m * 2 ^ k) / inject_Z ulps * inject_Z ulps == inject_Z (m * 2 ^ k))%Q).
  { field. discriminate. }
  set (y := (inject_Z (m * 2 ^ k) / inject_Z ulps * inject_Z ulps)%Q) in *.
  assert (Hp2 : 0 < 2 ^ k) by (apply Z.pow_pos_nonneg; lia).
  assert (H0 : (0 <= y)%Q).
  { rewrite Hy, <- (Zle_Qle 0). apply Z.mul_nonneg_nonneg; lia. }
  destruct (spacing_spec y H0) as [Hq [HL [Hup Hlow]]].
  set (L := Z.max (Z.log2 (Qfloor y)) 52) in *.
  assert (Hpos : 0 < spacing y) by (rewrite Hq; apply Z.pow_pos_nonneg; lia).
  assert (Hc : exists c, m * 2 ^ k = c * spacing y).
  { destruct (Z_le_gt_dec (L - 52) k) as [Hsmall | Hlarge].
    - exists (m * 2 ^ (k - (L - 52))). rewrite Hq, <- Z.mul_assoc, <- Z.pow_add_r by lia.
      do 2 f_equal. lia.
    - assert (Hbig : 52 < L) by lia.
      specialize (Hlow Hbig). rewrite Hy, <- Zle_Qle in Hlow.
      assert (Hle : m * 2 ^ k <= 2 ^ 53 * 2 ^ k)
        by (apply Z.mul_le_mono_nonneg_r; lia).
      rewrite <- Z.pow_add_r in Hle by lia.
      assert (HLk : L <= 53 + k).
      { apply (Z.pow_le_mono_r_iff 2); lia. }
      assert (EL : L = 53 + k) by lia.
      exists (2 ^ 52). rewrite Hq, <- Z.pow_add_r by lia.
      replace (52 + (L - 52)) with L by lia.
      apply Z.le_antisymm; [rewrite EL; exact Hle | exact Hlow]. }
  destruct Hc as [c Hc].
  assert (Hr : round_half_even (y / inject_Z (spacing y)) = c).
  { rewrite <- (round_half_even_Z c). apply round_half_even_eq.
    assert (E : (y == inject_Z c * inject_Z (spacing y))%Q)
      by (rewrite <- inject_Z_mult, <- Hc; exact Hy).
    assert (Hnz : ~ (inject_Z (spacing y) == 0)%Q).
    { intros Hz. apply (Qlt_irrefl 0). rewrite <- Hz at 2. now rewrite <- (Zlt_Qlt 0). }
    unfold Qdiv.
    apply Qeq_trans with (inject_Z c * inject_Z (spacing y) * / inject_Z (spacing y))%Q;
      [apply Qmult_comp; [exact E | reflexivity] | now field]. }
  rewrite Hr, <- Hc. reflexivity.
Qed.

(** What rounding gives is a double. *)
Lemma round_to_double_idempotent x :
  (0 <= x)%Q -> (round_to_double (round_to_double x) == round_to_double x)%Q.
Proof.
  intros H0.
  pose proof (scaled_nonneg x H0) as Hy.
  destruct (spacing_spec _ Hy) as [Hq [HL _]].
  pose proof (significand_range _ Hy) as Hm.
  assert (Hnn : (0 <= round_to_double x)%Q).
  { rewrite round_to_double_eq. apply Qmult_le_0_compat; [| discriminate].
    rewrite <- (Zle_Qle 0). apply Z.mul_nonneg_nonneg; [lia |].
    rewrite Hq. apply Z.pow_nonneg. lia. }
  rewrite (round_to_double_comp _ _ Hnn (round_to_double_eq x)).
  eapply Qeq_trans; [| symmetry; apply round_to_double_eq].
  rewrite Hq. apply round_to_double_exact; [exact Hm | lia].
Qed.

Lemma round_to_double_nonneg x : (0 <= x)%Q -> (0 <= round_to_double x)%Q.
Proof.
  intros H0.
  pose proof (scaled_nonneg x H0) as Hy.
  destruct (spacing_spec _ Hy) as [Hq [HL _]].
  pose proof (significand_range _ Hy) as Hm.
  rewrite round_to_double_eq. apply Qmult_le_0_compat; [| discriminate].
  rewrite <- (Zle_Qle 0). apply Z.mul_nonneg_nonneg; [lia |].
  rewrite Hq. apply Z.pow_nonneg. lia.
Qed.

Lemma binary64_nonneg x : (0 <= x)%Q -> binary64 x = round_to_double x.
Proof.
  intros H0. unfold binary64. apply Qle_bool_iff in H0. now rewrite H0.
Qed.


Lemma binary64_le x x' : (0 <= x)%Q -> (x <= x')%Q -> (binary64 x <= binary64 x')%Q.
Proof.
  intros H0 Hle. rewrite !binary64_nonneg by lra. now apply round_to_double_le.
Qed.

Lemma binary64_ge_0 x : (0 <= x)%Q -> (0 <= binary64 x)%Q.
Proof.
  intros H0. rewrite binary64_nonneg by exact H0. now apply round_to_double_nonneg.
Qed.

Lemma binary64_is_double x : (0 <= x)%Q -> is_double (binary64 x).
Proof.
  intros H0. unfold is_double. rewrite (binary64_nonneg x H0).
  rewrite binary64_nonneg by now apply round_to_double_nonneg.
  now apply round_to_double_idempotent.
Qed.

(** An integer of 53 bits at most is a double. *)
Lemma integer_is_double n : 0 <= n <= 2 ^ 53 -> is_double (inject_Z n).
Proof.
  intros Hn. unfold is_double.
  assert (H0 : (0 <= inject_Z n)%Q) by (rewrite <- (Zle_Qle 0); lia).
  rewrite binary64_nonneg by exact H0.
  assert (E : (inject_Z n == inject_Z (n * 2 ^ 1074) / inject_Z ulps)%Q).
  { rewrite inject_Z_mult. change (inject_Z (2 ^ 1074)) with (inject_Z ulps).
    field. discriminate. }
  rewrite (round_to_double_comp _ _ H0 E).
  eapply Qeq_trans; [| symmetry; exact E].
  apply round_to_double_exact; lia.
Qed.

(** The doubles from 64 to 128 are the multiples of 2^-46. *)
Lemma double_grid x :
  is_double x -> (64 <= x)%Q -> (x < 128)%Q ->
  exists m, (x == inject_Z m / inject_Z (2 ^ 46))%Q.
Proof.
  intros Hd Hlo Hhi. unfold is_double in Hd.
  rewrite binary64_nonneg in Hd by lra. rewrite round_to_double_eq in Hd.
  set (y := (x * inject_Z ulps)%Q) in *.
  assert (Hylo : (inject_Z (2 ^ 1080) <= y)%Q).
  { subst y. change (inject_Z (2 ^ 1080)) with (64 * inject_Z ulps)%Q.
    apply Qmult_le_compat_r; [exact Hlo | discriminate]. }
  assert (Hyhi : (y < inject_Z (2 ^ 1081))%Q).
  { subst y. change (inject_Z (2 ^ 1081)) with (128 * inject_Z ulps)%Q.
    apply Qmult_lt_compat_r; [reflexivity | exact Hhi]. }
  assert (Hlog : Z.log2 (Qfloor y) = 1080).
  { apply Z.log2_unique; [lia |]. split.
    - rewrite <- (Qfloor_Z (2 ^ 1080)). now apply Qfloor_resp_le.
    - rewrite Zlt_Qlt. apply Qle_lt_trans with (1 := Qfloor_le y).
      exact Hyhi. }
  assert (Hsp : spacing y = 2 ^ 1028) by (unfold spacing; rewrite Hlog; reflexivity).
  rewrite Hsp in Hd.
  exists (round_half_even (y / inject_Z (2 ^ 1028))).
  rewrite <- Hd at 1. rewrite inject_Z_mult.
  change (inject_Z ulps) with (inject_Z (2 ^ 46) * inject_Z (2 ^ 1028))%Q.
  field. split; discriminate.
Qed.

(** The largest double below an integer between 64 and 128. *)
Lemma double_below x c :
  is_double x -> (64 <= x)%Q -> 64 < c <= 128 -> (x < inject_Z c)%Q ->
  (x <= inject_Z c - 1 / inject_Z (2 ^ 46))%Q.
Proof.
  intros Hd Hlo Hc Hlt.
  assert (Hhi : (x < 128)%Q).
  { apply Qlt_le_trans with (1 := Hlt). change 128%Q with (inject_Z 128).
    rewrite <- Zle_Qle. lia. }
  destruct (double_grid x Hd Hlo Hhi) as [m Hm].
  assert (Hp : (0 < inject_Z (2 ^ 46))%Q) by reflexivity.
  assert (Hmc : m < c * 2 ^ 46).
  { rewrite Zlt_Qlt, inject_Z_mult. rewrite Hm in Hlt.
    apply (Qmult_lt_compat_r _ _ (inject_Z (2 ^ 46)) Hp) in Hlt.
    eapply Qle_lt_trans; [| exact Hlt]. apply Qle_lteq. right. field. discriminate. }
  assert (Hmc' : (inject_Z m <= inject_Z c * inject_Z (2 ^ 46) - 1)%Q).
  { apply Qle_trans with (inject_Z (c * 2 ^ 46 - 1)); [rewrite <- Zle_Qle; lia |].
    unfold Z.sub. rewrite inject_Z_plus, inject_Z_mult, inject_Z_opp. apply Qle_refl. }
  rewrite Hm. apply Qle_shift_div_r; [exact Hp |].
  eapply Qle_trans; [exact Hmc' |]. apply Qle_lteq. right. field. discriminate.
Qed.

(** The smallest double above an integer between 64 and 127. *)
Lemma double_above x c :
  is_double x -> 64 <= c < 128 -> (inject_Z c < x)%Q -> (x < 128)%Q ->
  (inject_Z c + 1 / inject_Z (2 ^ 46) <= x)%Q.
Proof.
  intros Hd Hc Hlt Hhi.
  assert (Hlo : (64 <= x)%Q).
  { apply Qlt_le_weak. apply Qle_lt_trans with (2 := Hlt). change 64%Q with (inject_Z 64).
    rewrite <- Zle_Qle. lia. }
  destruct (double_grid x Hd Hlo Hhi) as [m Hm].
  assert (Hp : (0 < inject_Z (2 ^ 46))%Q) by reflexivity.
  assert (Hmc : c * 2 ^ 46 < m).
  { rewrite Zlt_Qlt, inject_Z_mult. rewrite Hm in Hlt.
    apply (Qmult_lt_compat_r _ _ (inject_Z (2 ^ 46)) Hp) in Hlt.
    eapply Qlt_le_trans; [exact Hlt |]. apply Qle_lteq. right. field. discriminate. }
  assert (Hmc' : (inject_Z c * inject_Z (2 ^ 46) + 1 <= inject_Z m)%Q).
  { apply Qle_trans with (inject_Z (c * 2 ^ 46 + 1)); [| rewrite <- Zle_Qle; lia].
    rewrite inject_Z_plus, inject_Z_mult. apply Qle_refl. }
  rewrite Hm. apply Qle_shift_div_l; [exact Hp |].
  eapply Qle_trans; [| exact Hmc']. apply Qle_lteq. right. field. discriminate.
Qed.


Lemma binary64_at_most x c :
  (0 <= x)%Q -> (x <= c)%Q -> is_double c -> (binary64 x <= c)%Q.
Proof.
  intros H0 Hle Hc. apply Qle_trans with (binary64 c); [now apply binary64_le |].
  unfold is_double in Hc. rewrite Hc. apply Qle_refl.
Qed.

Lemma binary64_at_least x c :
  (0 <= c)%Q -> (c <= x)%Q -> is_double c -> (c <= binary64 x)%Q.
Proof.
  intros H0 Hle Hc. apply Qle_trans with (binary64 c); [| now apply binary64_le].
  unfold is_double in Hc. rewrite Hc. apply Qle_refl.
Qed.

End NumberFacts.

(** * The route: what it answers and what it forwards *)

Section RouteFacts.
Import Js.
Import Route.
Import Chat.

Lemma get_description request body :
  req_body request = Some body ->
  body <> JNull ->
  get (Some body) "description" = inr (description_of request).
Proof.
  intros Hb Hn. unfold description_of. rewrite Hb.
  destruct body; try reflexivity. contradiction.
Qed.

Lemma ok_not_200 st : ok st = false -> st <> 200.
Proof.
  unfold ok. intros H ->. discriminate H.
Qed.

Lemma NextResponse_json_relayable b st :
  relayable st = true ->
  NextResponse_json b (Some st) = inr (mkResponse st (JSON_stringify b)).
Proof.
  unfold relayable, NextResponse_json. intros H.
  apply andb_true_iff in H. destruct H as [Hrange Hbody].
  rewrite Hrange. apply negb_true_iff in Hbody. rewrite Hbody. reflexivity.
Qed.

Lemma NextResponse_json_not_relayable b st :
  relayable st = false -> exists e, NextResponse_json b (Some st) = inl e.
Proof.
  unfold relayable, NextResponse_json. intros H.
  destruct ((200 <=? st) && (st <=? 599)); cbn [negb andb] in H |- *.
  - apply negb_false_iff in H. rewrite H. now exists TypeError.
  - now exists RangeError.
Qed.

(** The handler on a body that is a JSON value other than null, case by case. *)
Lemma POST_on_value env backend request body :
  req_body request = Some body ->
  body <> JNull ->
  POST env backend request =
    if negb (truthy (description_of request)) then (description_required, [])
    else
      let call := build_call env (description_of request) in
      (match backend call with
       | Rejected => connect_failure
       | Responded st None => connect_failure
       | Responded st (Some r) =>
           if negb (ok st) then error_answer st r
           else mkResponse 200 (JSON_stringify r)
       end, [call]).
Proof.
  intros Hb Hn.
  unfold POST, try_catch, POST_body, bind.
  rewrite Hb. cbn [json_of ret].
  rewrite (get_description request body Hb Hn). cbn [lift ret].
  destruct (truthy (description_of request)); cbn [negb]; [| reflexivity].
  unfold fetch. cbn [app].
  destruct (backend (build_call env (description_of request))) as [| st [r |]];
    [reflexivity | | destruct (ok st); reflexivity].
  destruct (ok st); cbn [negb json_of ret]; [reflexivity |].
  unfold error_answer, relayed_error, detail_or_default.
  destruct (relayable st) eqn:Hst.
  - destruct r; cbn [get lift ret throw detail_of];
      try rewrite NextResponse_json_relayable by exact Hst; reflexivity.
  - destruct r; cbn [get lift ret throw detail_of]; try reflexivity;
      match goal with
      | |- context [NextResponse_json ?b (Some st)] =>
          destruct (NextResponse_json_not_relayable b st Hst) as [e ->]
      end; reflexivity.
Qed.

(** The handler on a body that is not JSON, or is null: the [catch] block
    answers, and nothing was sent. *)
Lemma POST_on_no_value env backend request :
  req_body request = None \/ req_body request = Some JNull ->
  POST env backend request = (connect_failure, []).
Proof.
  intros [Hb | Hb]; unfold POST, try_catch, POST_body, bind; rewrite Hb; reflexivity.
Qed.

Lemma null_or_not (body : json) : body = JNull \/ body <> JNull.
Proof.
  destruct body; (now left) || (right; discriminate).
Qed.

(** The detail that is relayed is written as it is when the body of the
    error is. *)
Lemma round_trips_detail error :
  round_trips error = true -> round_trips (detail_or_default error) = true.
Proof.
  intros H. unfold detail_or_default, or_else.
  destruct (detail_of error) as [detail |] eqn:Hd; [| reflexivity].
  destruct (truthy (Some detail)); [| reflexivity].
  destruct error; try discriminate Hd. now apply (round_trips_field fields "detail").
Qed.

Lemma detail_or_default_truthy error : truthy (Some (detail_or_default error)) = true.
Proof.
  unfold detail_or_default, or_else.
  destruct (detail_of error) as [detail |]; [| reflexivity].
  destruct (truthy (Some detail)) eqn:Ht; [exact Ht | reflexivity].
Qed.

(** C8, amended. A request whose body parses to a JSON value other than
    null and whose description is absent or falsy is answered 400 with
    the error [Description is required]; a body that is not JSON or is null
    is answered by the catch block, 500 with [Failed to connect to build
    server]. In every one of these cases no call to the builder is made. *)
Theorem POST_missing_description env backend request :
  lacks_description request ->
  snd (POST env backend request) = [] /\
  fst (POST env backend request) =
    match req_body request with
    | None | Some JNull => connect_failure
    | Some _ => description_required
    end.
Proof.
  intros Hlacks. unfold lacks_description in Hlacks.
  destruct (req_body request) as [body |] eqn:Hb.
  - destruct (null_or_not body) as [-> | Hn].
    + rewrite POST_on_no_value by (now right). now split.
    + rewrite (POST_on_value env backend request body Hb Hn), Hlacks.
      cbn [negb fst snd]. split; [reflexivity |].
      destruct body; try reflexivity. contradiction.
  - rewrite POST_on_no_value by (now left). now split.
Qed.

(** The guard on an empty object: 400, and the builder is not called. *)
Lemma POST_missing_description_witness :
  snd (POST None built_backend (mkRequest (Some (JObj [])))) = [] /\
  fst (POST None built_backend (mkRequest (Some (JObj [])))) = description_required.
Proof.
  apply (POST_missing_description None built_backend (mkRequest (Some (JObj [])))).
  reflexivity.
Defined.

(** C8 as stated fails on the body [null]: it has no description, and the
    answer is 500, not 400. So it does on a body that is not JSON. *)
Lemma POST_null_body_counterexample :
  lacks_description (mkRequest (Some JNull)) /\
  POST None built_backend (mkRequest (Some JNull)) = (connect_failure, []) /\
  lacks_description (mkRequest None) /\
  POST None built_backend (mkRequest None) = (connect_failure, []) /\
  status connect_failure = 500 /\
  connect_failure <> description_required.
Proof.
  repeat split; discriminate.
Qed.

(** C2, amended. For a request whose description is truthy the route makes
    exactly one call to the builder, a POST of [{description}] to [/build],
    the description as [JSON.stringify] writes it: as it is when its
    numbers are finite and none is the negative zero, so that a string is
    forwarded as it is; an infinity, which [1e999] parses to, is written as
    [null]. A backend
    answer that is ok and has a JSON body is relayed with status 200, the
    body written in the same way. One that is not ok, has a status a
    response can carry and a JSON body other than null is relayed as its
    status with its detail, or [Build failed] when the detail is absent or
    falsy, written in the same way again: the error is falsy exactly when
    the detail is an infinity. When the backend cannot be reached, or its
    body is not JSON, or its answer is not ok with a null body or a status
    no response can carry, the route answers 500 with [Failed to connect to
    build server]. *)
Theorem POST_forwards_and_relays env backend request d :
  description_of request = Some d ->
  truthy (Some d) = true ->
  let call :=
    mkFetchCall (PYTHON_API_URL env ++ "/build")%string "POST"
      [("Content-Type", "application/json")]
      (JObj [("description", JSON_stringify d)]) in
  snd (POST env backend request) = [call] /\
  (round_trips d = true <-> JSON_stringify d = d) /\
  (forall st result,
      backend call = Responded st (Some result) -> ok st = true ->
      fst (POST env backend request) = mkResponse 200 (JSON_stringify result) /\
      (round_trips result = true <-> JSON_stringify result = result)) /\
  (forall st error,
      backend call = Responded st (Some error) -> ok st = false ->
      relayable st = true -> error <> JNull ->
      fst (POST env backend request) =
        mkResponse st (error_body (JSON_stringify (detail_or_default error))) /\
      (round_trips error = true ->
       JSON_stringify (detail_or_default error) = detail_or_default error) /\
      (truthy (Some (JSON_stringify (detail_or_default error))) = false <->
       unwritable (detail_or_default error))) /\
  (backend call = Rejected \/
   (exists st, backend call = Responded st None) \/
   (exists st error,
      backend call = Responded st (Some error) /\ ok st = false /\
      (error = JNull \/ relayable st = false)) ->
   fst (POST env backend request) = connect_failure).
Proof.
  intros Hd Ht call.
  assert (Hbody : exists fields, req_body request = Some (JObj fields)).
  { unfold description_of in Hd.
    destruct (req_body request) as [[| | | | | fields] |]; try discriminate.
    now exists fields. }
  destruct Hbody as [fields Hb].
  rewrite (POST_on_value env backend request (JObj fields) Hb) by discriminate.
  rewrite Hd, Ht. cbn [negb].
  change (build_call env (Some d)) with call. cbv zeta. cbn [fst snd].
  split; [reflexivity |]. split; [apply JSON_stringify_round_trips |].
  split; [| split].
  - intros st result -> ->. split; [reflexivity | apply JSON_stringify_round_trips].
  - intros st error -> -> Hst Hn. cbn [negb]. split; [| split].
    + unfold error_answer. rewrite Hst. destruct error; try reflexivity. contradiction.
    + intros Hrt. apply JSON_stringify_round_trips. now apply round_trips_detail.
    + apply truthy_stringify. apply detail_or_default_truthy.
  - intros [-> | [[st ->] | [st [error [-> [-> Hwhy]]]]]]; try reflexivity.
    cbn [negb]. unfold error_answer.
    destruct Hwhy as [-> | ->]; [reflexivity | destruct error; reflexivity].
Qed.

(** The cabin request against a builder that answers: one call, relayed. *)
Lemma POST_forwards_and_relays_witness :
  snd (POST None built_backend cabin_request) =
    [mkFetchCall "http://localhost:8000/build" "POST"
       [("Content-Type", "application/json")]
       (JObj [("description", JStr "a cabin")])].
Proof.
  apply (POST_forwards_and_relays None built_backend cabin_request (JStr "a cabin"));
    reflexivity.
Defined.

(** C2 as stated fails when the backend's answer is not ok and its body is
    not JSON: the status 503 is not relayed, and the error is not
    [Build failed]. So it does when the body is the JSON value null, which
    has no detail: the status 404 is not relayed. And it fails on numbers
    out of range: the description [1e999] is truthy and is forwarded as
    [null]; a result that counts [1e999] blocks is relayed with [null]
    blocks; the detail [1e999] is relayed as the error [null]. *)
Lemma POST_gateway_counterexample :
  truthy (description_of cabin_request) = true /\
  gateway_backend (build_call None (description_of cabin_request)) = Responded 503 None /\
  ok 503 = false /\
  fst (POST None gateway_backend cabin_request) = connect_failure /\
  ok 404 = false /\
  fst (POST None (fun _ => Responded 404 (Some JNull)) cabin_request) = connect_failure /\
  status connect_failure = 500 /\
  body connect_failure <> error_body (JStr "Build failed") /\
  truthy (description_of overflowing_request) = true /\
  map fc_body (snd (POST None built_backend overflowing_request)) =
    [JObj [("description", JNull)]] /\
  fst (POST None overcounting_backend cabin_request) =
    mkResponse 200 (JObj [("blocks_placed", JNull)]) /\
  fst (POST None overflowing_refusal cabin_request) = mkResponse 422 (error_body JNull).
Proof.
  repeat split; discriminate.
Qed.

(** C1, amended. A call that succeeds (is answered 200) had a truthy
    description; no anchor is asked for or forwarded, the builder being
    called once with [{description}] alone; and the response body is the
    JSON result of the builder as [JSON.stringify] writes it, which is that
    result itself when its numbers are finite and none is the negative
    zero. Writing drops and adds no field, so that the response has the
    fields [blocks_placed] and [execution_time] exactly when the result of
    the builder has. *)
Theorem POST_success env backend request :
  succeeds env backend request ->
  exists d result st,
    description_of request = Some d /\ truthy (Some d) = true /\
    snd (POST env backend request) = [build_call env (Some d)] /\
    fc_body (build_call env (Some d)) = JObj [("description", JSON_stringify d)] /\
    backend (build_call env (Some d)) = Responded st (Some result) /\
    ok st = true /\
    fst (POST env backend request) = mkResponse 200 (JSON_stringify result) /\
    (round_trips result = true <-> JSON_stringify result = result) /\
    (forall k, has_field (JSON_stringify result) k <-> has_field result k).
Proof.
  unfold succeeds. intros H200.
  destruct (req_body request) as [body |] eqn:Hb;
    [| rewrite POST_on_no_value in H200 by (now left); discriminate H200].
  destruct (null_or_not body) as [-> | Hn];
    [rewrite POST_on_no_value in H200 by (now right); discriminate H200 |].
  rewrite (POST_on_value env backend request body Hb Hn) in H200 |- *.
  destruct (description_of request) as [d |] eqn:Hd; [| discriminate H200].
  destruct (truthy (Some d)) eqn:Ht; [| discriminate H200].
  cbn [negb] in H200 |- *. cbv zeta in H200 |- *. cbn [fst snd] in H200 |- *.
  destruct (backend (build_call env (Some d))) as [| st [r |]] eqn:Hbk;
    try discriminate H200.
  destruct (ok st) eqn:Hok; cbn [negb] in H200 |- *.
  - exists d, r, st.
    repeat match goal with |- _ /\ _ => split end;
      first [assumption | reflexivity | apply JSON_stringify_round_trips
            | intros k; apply has_field_stringify].
  - exfalso. apply (ok_not_200 st Hok). unfold error_answer in H200.
    destruct (relayable st); destruct r; first [discriminate H200 | exact H200].
Qed.

(** The cabin request succeeds against a builder that answers. *)
Lemma POST_success_witness :
  exists d result st,
    description_of cabin_request = Some d /\ truthy (Some d) = true /\
    snd (POST None built_backend cabin_request) = [build_call None (Some d)] /\
    fc_body (build_call None (Some d)) = JObj [("description", JSON_stringify d)] /\
    built_backend (build_call None (Some d)) = Responded st (Some result) /\
    ok st = true /\
    fst (POST None built_backend cabin_request) = mkResponse 200 (JSON_stringify result) /\
    (round_trips result = true <-> JSON_stringify result = result) /\
    (forall k, has_field (JSON_stringify result) k <-> has_field result k).
Proof.
  apply (POST_success None built_backend cabin_request). reflexivity.
Defined.

(** C1 as stated fails on the request the chat itself sends: the call
    succeeds, and the request has a description and no anchor. It fails
    on the response as well: against a builder that answers ok with an
    empty object the call succeeds, and the response has neither
    [blocks_placed] nor [execution_time]. *)
Lemma POST_without_anchor_counterexample :
  snd (handleSend 0 0 (setInput "a cabin" initial)) = [api_build_call "a cabin"] /\
  req_body cabin_request = Some (fc_body (api_build_call "a cabin")) /\
  succeeds None built_backend cabin_request /\
  has_field (fc_body (api_build_call "a cabin")) "description" /\
  ~ has_field (fc_body (api_build_call "a cabin")) "anchor" /\
  succeeds None bare_backend cabin_request /\
  ~ has_field (body (fst (POST None bare_backend cabin_request))) "blocks_placed" /\
  ~ has_field (body (fst (POST None bare_backend cabin_request))) "execution_time".
Proof.
  repeat split; try reflexivity;
    try discriminate; intros H; apply H; reflexivity.
Qed.

End RouteFacts.

(** * The chat component: one build at a time, and the progress bar *)

Section ChatFacts.
Import Js.
Import Route.
Import Chat.

Lemma is_empty_spec s : is_empty s = true <-> s = "".
Proof.
  destruct s; split; intros H; try reflexivity; discriminate H.
Qed.

Lemma handleSend_guarded now rnd s :
  trim (input s) = "" \/ isBuilding s = true -> handleSend now rnd s = (s, []).
Proof.
  intros H. unfold handleSend.
  replace (is_empty (trim (input s)) || isBuilding s) with true; [reflexivity |].
  symmetry. apply orb_true_iff.
  destruct H as [H | H]; [left; now apply is_empty_spec | now right].
Qed.

Lemma handleSend_started now rnd s :
  is_empty (trim (input s)) || isBuilding s = false ->
  isBuilding (fst (handleSend now rnd s)) = true /\
  running (fst (handleSend now rnd s)) = running s ++ [AwaitFetch (input s)] /\
  snd (handleSend now rnd s) = [api_build_call (input s)].
Proof.
  intros H. unfold handleSend. rewrite H. cbn. repeat split.
Qed.

Lemma single_slot {A} (l : list A) i x :
  (List.length l <= 1)%nat -> nth_error l i = Some x ->
  i = O /\ l = [x].
Proof.
  destruct l as [| y [| z l]]; cbn; intros Hlen Hnth.
  - destruct i; discriminate Hnth.
  - destruct i as [| i]; cbn in Hnth.
    + injection Hnth as ->. now split.
    + destruct i; discriminate Hnth.
  - lia.
Qed.

Lemma finish_fields s :
  isBuilding (finish s) = false /\ running (finish s) = running s /\
  buildProgress (finish s) = 0%Q.
Proof. repeat split. Qed.

Lemma single_flight_step s e : single_flight s -> single_flight (fst (step s e)).
Proof.
  intros [Hiff Hlen]. destruct e as [now rnd | text | now rnd | rnd | i r now | i now rnd]; cbn [step fst].
  - unfold hydrate. destruct (isHydrated s); now split.
  - now split.
  - destruct (is_empty (trim (input s)) || isBuilding s) eqn:Hg.
    + unfold handleSend. rewrite Hg. now split.
    + destruct (handleSend_started now rnd s Hg) as [Hb [Hr _]].
      apply orb_false_iff in Hg. destruct Hg as [_ Hnb].
      assert (Hnil : running s = []).
      { destruct (running s) eqn:E; [reflexivity |].
        assert (isBuilding s = true) by (apply Hiff; discriminate). congruence. }
      unfold single_flight. rewrite Hb, Hr, Hnil. cbn. split; [| lia].
      split; [discriminate | reflexivity].
  - unfold tick. destruct (existsb _ _); now split.
  - unfold fetch_settled.
    destruct (nth_error (running s) i) as [[d | d st b] |] eqn:Hnth; try now split.
    destruct (single_slot _ _ _ Hlen Hnth) as [-> Hr].
    destruct r as [| st rbody].
    + unfold single_flight. cbn. rewrite Hr. cbn. split; [| lia].
      split; [discriminate | intros H; now contradiction H].
    + unfold single_flight. cbn. rewrite Hr. cbn. split; [| lia].
      split; [discriminate |]. intros _. apply Hiff. rewrite Hr. discriminate.
  - unfold json_settled.
    destruct (nth_error (running s) i) as [[d | d st b] |] eqn:Hnth; try now split.
    destruct (single_slot _ _ _ Hlen Hnth) as [-> Hr].
    match goal with
    | |- single_flight (match ?x with inl _ => _ | inr _ => _ end) =>
        assert (Hx : forall s', x = inr s' -> running s' = [])
    end.
    { intros s'. rewrite Hr. cbn [remove_nth].
      destruct b as [parsed |]; [| discriminate].
      destruct (ok st).
      - destruct (complete_content rnd parsed); [discriminate |].
        intros H; injection H as <-. reflexivity.
      - destruct (failure_content parsed); [discriminate |].
        intros H; injection H as <-. reflexivity. }
    match goal with
    | |- single_flight (match ?x with inl _ => _ | inr _ => _ end) =>
        destruct x as [err | s'] eqn:Hshown
    end.
    + unfold single_flight. cbn. rewrite Hr. cbn. split; [| lia].
      split; [discriminate | intros H; now contradiction H].
    + specialize (Hx s' eq_refl).
      unfold single_flight. destruct (finish_fields s') as [Hb [Hrun _]].
      rewrite Hb, Hrun, Hx. cbn. split; [| lia].
      split; [discriminate | intros H; now contradiction H].
Qed.

Lemma single_flight_reachable s : reachable s -> single_flight s.
Proof.
  induction 1 as [| s e _ IH].
  - split; [| cbn; lia]. split; [discriminate | intros H; now contradiction H].
  - now apply single_flight_step.
Qed.


(** C9. When the input is empty after trimming, or a build is running,
    [handleSend] returns at once: no message is appended, no request is
    issued, the state is as it was. The Build button is disabled under
    exactly those two conditions. In every state the component can reach, a
    [handleSend] that is still awaited makes the next one return at once,
    so at most one build is in flight. *)
Theorem handleSend_single_flight :
  (forall now rnd s,
      trim (input s) = "" \/ isBuilding s = true ->
      handleSend now rnd s = (s, [])) /\
  (forall s,
      build_button_disabled s = true <->
      (trim (input s) = "" \/ isBuilding s = true)) /\
  (forall s, reachable s ->
      (List.length (running s) <= 1)%nat /\
      (running s <> [] -> forall now rnd, handleSend now rnd s = (s, []))).
Proof.
  split; [| split].
  - intros now rnd s. apply handleSend_guarded.
  - intros s. unfold build_button_disabled, Button_disabled.
    rewrite !orb_true_iff, is_empty_spec. tauto.
  - intros s Hreach.
    destruct (single_flight_reachable s Hreach) as [Hiff Hlen].
    split; [exact Hlen |].
    intros Hrun now rnd. apply handleSend_guarded. right. now apply Hiff.
Qed.

(** A second Build while the first is in flight changes nothing and sends
    nothing. *)
Lemma handleSend_single_flight_witness :
  handleSend 2 0 (setInput "a tower" busy_state) = (setInput "a tower" busy_state, []).
Proof.
  apply (proj1 handleSend_single_flight 2 0%Q (setInput "a tower" busy_state)).
  right. reflexivity.
Defined.

(** The percentage shown never exceeds 100. *)
Lemma shown_percent_le_100 s : shown_percent s <= 100.
Proof.
  unfold shown_percent, bar_width.
  assert (H : (Qmin (buildProgress s) 100 + (1 # 2) <= 100 + (1 # 2))%Q).
  { apply Qplus_le_l. apply Q.le_min_r. }
  apply Qfloor_resp_le in H.
  replace (Qfloor (100 + (1 # 2))) with 100 in H by reflexivity.
  exact H.
Qed.

Lemma below_the_cap prev : Qle_bool 90 prev = false -> (prev < 90)%Q.
Proof.
  intros Hcap. apply Qnot_le_lt. intros H. apply Qle_bool_iff in H. congruence.
Qed.

(** One update of the interval, from a double that is not negative, gives
    a double that is not negative and is below 103. *)
Lemma progress_update_range rnd prev :
  unit_interval rnd -> (0 <= prev)%Q -> is_double prev ->
  (0 <= progress_update rnd prev)%Q /\ (progress_update rnd prev < 103)%Q /\
  is_double (progress_update rnd prev).
Proof.
  intros [H0 H1] Hlo Hd. unfold progress_update.
  destruct (Qle_bool 90 prev) eqn:Hcap.
  { split; [lra | split; [lra | vm_compute; reflexivity]]. }
  apply below_the_cap in Hcap.
  assert (Ha0 : (0 <= binary64 (rnd * 10))%Q) by (apply binary64_ge_0; lra).
  assert (Ha1 : (binary64 (rnd * 10) <= 10)%Q).
  { apply binary64_at_most; [lra | lra | vm_compute; reflexivity]. }
  set (a := binary64 (rnd * 10)) in *.
  assert (Hs0 : (0 <= binary64 (prev + a))%Q) by (apply binary64_ge_0; lra).
  split; [apply binary64_ge_0; lra |]. split; [| apply binary64_is_double; lra].
  destruct (Qlt_le_dec prev 64) as [Hsmall | Hlarge].
  - assert (Hs1 : (binary64 (prev + a) <= 74)%Q).
    { apply binary64_at_most; [lra | lra | vm_compute; reflexivity]. }
    apply Qle_lt_trans with 77%Q; [| reflexivity].
    apply binary64_at_most; [lra | lra | vm_compute; reflexivity].
  - pose proof (double_below prev 90 Hd Hlarge ltac:(lia) Hcap) as Hgrid.
    change (inject_Z 90) with 90%Q in Hgrid.
    assert (Heps : (0 < 1 / inject_Z (2 ^ 46))%Q) by reflexivity.
    set (eps := (1 / inject_Z (2 ^ 46))%Q) in *.
    assert (Hs1 : (binary64 (prev + a) <= 100 - eps)%Q).
    { apply binary64_at_most; [lra | lra | vm_compute; reflexivity]. }
    apply Qle_lt_trans with (103 - eps)%Q; [| lra].
    apply binary64_at_most; [lra | lra | vm_compute; reflexivity].
Qed.

(** From a double between 87 and 90 the next update lands above 90,
    whatever [Math.random()] returns. *)
Lemma progress_update_exceeds_cap rnd prev :
  (0 <= rnd)%Q -> is_double prev -> (87 < prev)%Q -> (prev < 90)%Q ->
  (90 < progress_update rnd prev)%Q.
Proof.
  intros H0 Hd Hlo Hhi. unfold progress_update.
  destruct (Qle_bool 90 prev) eqn:Hcap;
    [apply Qle_bool_iff in Hcap; exfalso; lra |].
  pose proof (double_above prev 87 Hd ltac:(lia) Hlo ltac:(lra)) as Hgrid.
  change (inject_Z 87) with 87%Q in Hgrid.
  assert (Heps : (0 < 1 / inject_Z (2 ^ 46))%Q) by reflexivity.
  set (eps := (1 / inject_Z (2 ^ 46))%Q) in *.
  assert (Ha0 : (0 <= binary64 (rnd * 10))%Q) by (apply binary64_ge_0; lra).
  set (a := binary64 (rnd * 10)) in *.
  assert (Hs1 : (87 + eps <= binary64 (prev + a))%Q).
  { apply binary64_at_least; [lra | lra | vm_compute; reflexivity]. }
  apply Qlt_le_trans with (90 + eps)%Q; [lra |].
  apply binary64_at_least; [lra | lra | vm_compute; reflexivity].
Qed.

(** One update brings a progress of at least 3k to at least 3(k + 1),
    or to the cap. *)
Lemma progress_update_step rnd prev k :
  (0 <= rnd)%Q -> 0 <= k ->
  (Qmin (inject_Z (3 * k)) 90 <= prev)%Q ->
  (Qmin (inject_Z (3 * (k + 1))) 90 <= progress_update rnd prev)%Q.
Proof.
  intros H0 Hk Hprev. unfold progress_update.
  destruct (Qle_bool 90 prev) eqn:Hcap; [apply Q.le_min_r |].
  apply below_the_cap in Hcap.
  assert (H3k : (inject_Z (3 * k) <= prev)%Q).
  { destruct (Q.min_spec (inject_Z (3 * k)) 90) as [[_ E] | [_ E]];
      rewrite E in Hprev; [exact Hprev | exfalso; lra]. }
  assert (Hk30 : k < 30).
  { assert (H : (inject_Z (3 * k) < inject_Z 90)%Q) by (change (inject_Z 90) with 90%Q; lra).
    rewrite <- Zlt_Qlt in H. lia. }
  assert (Hpow : 90 <= 2 ^ 53) by (vm_compute; discriminate).
  assert (Hn : (0 <= inject_Z (3 * k))%Q) by (rewrite <- (Zle_Qle 0); lia).
  assert (Ha0 : (0 <= binary64 (rnd * 10))%Q) by (apply binary64_ge_0; lra).
  set (a := binary64 (rnd * 10)) in *.
  assert (Hs1 : (inject_Z (3 * k) <= binary64 (prev + a))%Q).
  { apply binary64_at_least; [exact Hn | lra | apply integer_is_double; lia]. }
  eapply Qle_trans; [apply Q.le_min_l |].
  assert (Hn' : (0 <= inject_Z (3 * (k + 1)))%Q) by (rewrite <- (Zle_Qle 0); lia).
  apply binary64_at_least; [exact Hn' | | apply integer_is_double; lia].
  replace (3 * (k + 1)) with (3 * k + 3) by lia. rewrite inject_Z_plus.
  change (inject_Z 3) with 3%Q. lra.
Qed.

(** Once a build has ended the progress is back at 0 and the build is no
    longer shown as running. *)
Lemma finish_resets s : (buildProgress (finish s) == 0)%Q /\ isBuilding (finish s) = false.
Proof. split; reflexivity. Qed.

(** C10, where the code departs from it. After twelve ticks with
    [Math.random()] at one half the fetch is still pending and the progress
    is 96, above the cap of 90; with a last draw of 0.875 it is 99.75, and
    the bar shows 100 percent before any response has arrived. *)
Theorem progress_overshoots_cap :
  (running (fst (run initial twelve_ticks)) = [AwaitFetch "a cabin"] /\
   isBuilding (fst (run initial twelve_ticks)) = true /\
   (buildProgress (fst (run initial twelve_ticks)) == 96)%Q /\
   shown_percent (fst (run initial twelve_ticks)) = 96) /\
  (running (fst (run initial ticks_to_the_top)) = [AwaitFetch "a cabin"] /\
   (buildProgress (fst (run initial ticks_to_the_top)) == 399 # 4)%Q /\
   shown_percent (fst (run initial ticks_to_the_top)) = 100).
Proof.
  split; [split; [| split; [| split]] | split; [| split]]; vm_compute; reflexivity.
Qed.

End ChatFacts.

(** * The builder core: order of the compiled operations, failing before
      dispatch, retries *)

Section CoreFacts.
Import Core.

Lemma StronglySorted_app {A} (R : A -> A -> Prop) l1 l2 :
  StronglySorted R l1 -> StronglySorted R l2 ->
  (forall x y, In x l1 -> In y l2 -> R x y) ->
  StronglySorted R (l1 ++ l2).
Proof.
  intros H1 H2 Hcross. induction H1 as [| a l Hl IH Ha]; cbn; [exact H2 |].
  constructor.
  - apply IH. intros x y Hx Hy. apply Hcross; [now right | exact Hy].
  - apply Forall_app. split; [exact Ha |].
    apply Forall_forall. intros y Hy. apply Hcross; [now left | exact Hy].
Qed.

Lemma flush_sources anchor k pending :
  flat_map op_sources (flush anchor k pending) = pending_sources pending.
Proof.
  destruct pending; cbn; [apply app_nil_r | reflexivity].
Qed.

Lemma flush_phase anchor k pending :
  Forall (fun op => op_phase op = k) (flush anchor k pending).
Proof.
  destruct pending; cbn; repeat constructor.
Qed.

(** The sources of the operations of a phase, in order, are the pending
    sources followed by what each element contributes. *)
Lemma lower_phase_sources anchor k es :
  forall scheduled pending,
    flat_map op_sources (fst (lower_phase anchor k scheduled pending es)) =
    pending_sources pending ++ flat_map emitted es.
Proof.
  induction es as [| [i e] rest IH]; intros scheduled pending.
  - cbn [lower_phase fst flat_map]. rewrite flush_sources. now rewrite app_nil_r.
  - destruct e as [m dims pos ph | m pos facing ph | m positions facing ph];
      cbn [lower_phase flat_map emitted snd fst].
    + destruct pending as [f |].
      * destruct (String.eqb (pf_material f) m && adjacent (pf_box f) (region_box dims pos)
                  && safe (bounding (pf_box f) (region_box dims pos)) scheduled).
        -- rewrite IH. cbn [pending_sources pf_sources]. now rewrite <- app_assoc.
        -- specialize (IH (pf_box f :: scheduled)
                         (Some (mkPending m (region_box dims pos) [i]))).
           destruct (lower_phase anchor k (pf_box f :: scheduled)
                       (Some (mkPending m (region_box dims pos) [i])) rest) as [ops after].
           cbn [fst] in IH |- *. rewrite flat_map_app, flush_sources, IH. reflexivity.
      * rewrite IH. reflexivity.
    + specialize (IH (cell pos :: scheduled_with pending scheduled) None).
      destruct (lower_phase anchor k (cell pos :: scheduled_with pending scheduled) None rest)
        as [ops after].
      cbn [fst] in IH |- *. rewrite flat_map_app, flush_sources. cbn [flat_map op_sources].
      rewrite IH. reflexivity.
    + specialize (IH (map cell positions ++ scheduled_with pending scheduled) None).
      destruct (lower_phase anchor k (map cell positions ++ scheduled_with pending scheduled)
                  None rest) as [ops after].
      cbn [fst] in IH |- *. rewrite !flat_map_app, flush_sources, IH.
      cbn [pending_sources app]. f_equal. f_equal.
      clear. induction positions as [| p ps IHp]; cbn; [reflexivity | now rewrite IHp].
Qed.

(** Every operation of a phase carries the phase. *)
Lemma lower_phase_phase anchor k es :
  forall scheduled pending,
    Forall (fun op => op_phase op = k) (fst (lower_phase anchor k scheduled pending es)).
Proof.
  induction es as [| [i e] rest IH]; intros scheduled pending.
  - apply flush_phase.
  - destruct e as [m dims pos ph | m pos facing ph | m positions facing ph];
      cbn [lower_phase].
    + destruct pending as [f |]; [| apply IH].
      destruct (String.eqb (pf_material f) m && adjacent (pf_box f) (region_box dims pos)
                && safe (bounding (pf_box f) (region_box dims pos)) scheduled);
        [apply IH |].
      specialize (IH (pf_box f :: scheduled) (Some (mkPending m (region_box dims pos) [i]))).
      destruct (lower_phase anchor k (pf_box f :: scheduled)
                  (Some (mkPending m (region_box dims pos) [i])) rest) as [ops after].
      cbn [fst] in IH |- *. apply Forall_app. split; [apply flush_phase | exact IH].
    + specialize (IH (cell pos :: scheduled_with pending scheduled) None).
      destruct (lower_phase anchor k (cell pos :: scheduled_with pending scheduled) None rest)
        as [ops after].
      cbn [fst] in IH |- *. apply Forall_app. split; [apply flush_phase |].
      constructor; [reflexivity | exact IH].
    + specialize (IH (map cell positions ++ scheduled_with pending scheduled) None).
      destruct (lower_phase anchor k (map cell positions ++ scheduled_with pending scheduled)
                  None rest) as [ops after].
      cbn [fst] in IH |- *. apply Forall_app. split; [apply flush_phase |].
      apply Forall_app. split; [| exact IH].
      apply Forall_forall. intros op Hop. apply in_map_iff in Hop.
      destruct Hop as [p [<- _]]. reflexivity.
Qed.


Lemma indexed_from_sorted a (l : list Element) :
  StronglySorted lt (map fst (combine (seq a (List.length l)) l)).
Proof.
  revert a. induction l as [| e l IH]; intros a; cbn; constructor.
  - apply IH.
  - apply Forall_forall. intros i Hi. apply in_map_iff in Hi.
    destruct Hi as [[j e'] [<- Hin]]. apply in_combine_l in Hin.
    apply in_seq in Hin. cbn. lia.
Qed.

Lemma filter_keeps_sorted (f : nat * Element -> bool) l :
  StronglySorted lt (map fst l) -> StronglySorted lt (map fst (filter f l)).
Proof.
  induction l as [| ie l IH]; cbn; intros H; [constructor |].
  apply StronglySorted_inv in H. destruct H as [Hl Hhd].
  destruct (f ie); cbn; [| now apply IH].
  constructor; [now apply IH |].
  apply Forall_forall. intros j Hj. apply in_map_iff in Hj.
  destruct Hj as [je [<- Hin]]. apply filter_In in Hin.
  rewrite Forall_forall in Hhd. apply Hhd. apply in_map. tauto.
Qed.

Lemma in_emitted ie j : In j (emitted ie) -> j = fst ie.
Proof.
  unfold emitted. destruct (snd ie); cbn; try (intros [<- | []]; reflexivity).
  intros H. now apply repeat_spec in H.
Qed.

Lemma emitted_sorted ie : StronglySorted le (emitted ie).
Proof.
  unfold emitted. destruct (snd ie); try (repeat constructor).
  induction (List.length positions) as [| n IH]; cbn; constructor; [exact IH |].
  apply Forall_forall. intros j Hj. apply repeat_spec in Hj. lia.
Qed.

Lemma flat_map_emitted_sorted l :
  StronglySorted lt (map fst l) -> StronglySorted le (flat_map emitted l).
Proof.
  induction l as [| ie l IH]; cbn; intros H; [constructor |].
  apply StronglySorted_inv in H. destruct H as [Hl Hhd].
  apply StronglySorted_app; [apply emitted_sorted | now apply IH |].
  intros x y Hx Hy. apply in_emitted in Hx. subst x.
  apply in_flat_map in Hy. destruct Hy as [je [Hin Hy]].
  apply in_emitted in Hy. subst y.
  rewrite Forall_forall in Hhd. apply Nat.lt_le_incl, Hhd. now apply in_map.
Qed.

(** The operations of the phases from the [k]-th on carry phases from [k]
    on, in order. *)
Lemma lower_phases_order anchor es order :
  forall k scheduled,
    Forall (fun op => (k <= op_phase op)%nat) (lower_phases anchor es k scheduled order) /\
    phases_in_order (lower_phases anchor es k scheduled order).
Proof.
  unfold phases_in_order.
  induction order as [| tag later IH]; intros k scheduled; cbn [lower_phases].
  - split; constructor.
  - pose proof (lower_phase_phase anchor k (in_phase tag es) scheduled None) as Hk.
    destruct (lower_phase anchor k scheduled None (in_phase tag es)) as [ops after].
    cbn [fst] in Hk. destruct (IH (S k) after) as [Hge Hsorted].
    rewrite Forall_forall in Hk, Hge. split.
    + apply Forall_app. split; apply Forall_forall; intros op Hop.
      * rewrite (Hk op Hop). lia.
      * specialize (Hge op Hop). lia.
    + rewrite map_app. apply StronglySorted_app; [| exact Hsorted |].
      * clear - Hk. induction ops as [| op ops IHo]; cbn; constructor.
        -- apply IHo. intros o Ho. apply Hk. now right.
        -- apply Forall_forall. intros j Hj. apply in_map_iff in Hj.
           destruct Hj as [o [<- Ho]].
           rewrite (Hk op (or_introl eq_refl)), (Hk o (or_intror Ho)). lia.
      * intros x y Hx Hy. apply in_map_iff in Hx, Hy.
        destruct Hx as [o1 [<- H1]]. destruct Hy as [o2 [<- H2]].
        rewrite (Hk o1 H1). specialize (Hge o2 H2). lia.
Qed.

Lemma of_phase_all k ops :
  Forall (fun op => op_phase op = k) ops -> of_phase k ops = ops.
Proof.
  intros H. unfold of_phase. apply forallb_filter_id. apply forallb_forall.
  rewrite Forall_forall in H. intros op Hop. apply Nat.eqb_eq. now apply H.
Qed.

Lemma of_phase_none k ops :
  Forall (fun op => op_phase op <> k) ops -> of_phase k ops = [].
Proof.
  unfold of_phase. induction 1 as [| op ops Hop _ IH]; cbn; [reflexivity |].
  apply Nat.eqb_neq in Hop. now rewrite Hop.
Qed.

(** The sources of the operations of one phase are what the elements of
    some phase tag contribute, or there are none. *)
Lemma lower_phases_sources anchor es order j :
  forall k scheduled,
    flat_map op_sources (of_phase j (lower_phases anchor es k scheduled order)) = [] \/
    exists tag,
      nth_error order (j - k) = Some tag /\ (k <= j)%nat /\
      flat_map op_sources (of_phase j (lower_phases anchor es k scheduled order)) =
      flat_map emitted (in_phase tag es).
Proof.
  induction order as [| tag later IH]; intros k scheduled; cbn [lower_phases].
  - now left.
  - pose proof (lower_phase_phase anchor k (in_phase tag es) scheduled None) as Hk.
    pose proof (lower_phase_sources anchor k (in_phase tag es) scheduled None) as Hs.
    destruct (lower_phase anchor k scheduled None (in_phase tag es)) as [ops after].
    cbn [fst pending_sources app] in Hk, Hs.
    destruct (lower_phases_order anchor es later (S k) after) as [Hge _].
    unfold of_phase. rewrite filter_app. fold (of_phase j ops).
    fold (of_phase j (lower_phases anchor es (S k) after later)).
    destruct (Nat.eq_dec j k) as [-> | Hne].
    + right. exists tag. rewrite Nat.sub_diag. cbn [nth_error].
      rewrite (of_phase_all k ops Hk), of_phase_none, app_nil_r, Hs; [auto |].
      eapply Forall_impl; [| exact Hge]. cbn. intros op Hop. lia.
    + rewrite (of_phase_none j ops), app_nil_l.
      2:{ eapply Forall_impl; [| exact Hk]. cbn. intros op Hop. lia. }
      destruct (IH (S k) after) as [Hnil | [tag' [Hnth [Hle Heq]]]]; [now left |].
      right. exists tag'. replace (j - k)%nat with (S (j - S k)) by lia.
      cbn [nth_error]. repeat split; [exact Hnth | lia | exact Heq].
Qed.


Lemma in_indexed_from a (l : list Element) i e :
  In (i, e) (combine (seq a (List.length l)) l) ->
  (a <= i)%nat /\ nth_error l (i - a) = Some e.
Proof.
  revert a. induction l as [| x l IH]; intros a; cbn; [intros [] |].
  intros [H | H].
  - injection H as <- <-. rewrite Nat.sub_diag. now split.
  - apply IH in H. destruct H as [Hle Hnth]. split; [lia |].
    replace (i - a)%nat with (S (i - S a)) by lia. exact Hnth.
Qed.

Lemma lower_phases_tagged anchor es order :
  forall k scheduled,
    Forall (fun op =>
      exists tag,
        nth_error order (op_phase op - k) = Some tag /\ (k <= op_phase op)%nat /\
        Forall (fun i => exists e, In (i, e) es /\ phase_of e = tag) (op_sources op))
      (lower_phases anchor es k scheduled order).
Proof.
  induction order as [| tag later IH]; intros k scheduled; cbn [lower_phases].
  - constructor.
  - pose proof (lower_phase_phase anchor k (in_phase tag es) scheduled None) as Hk.
    pose proof (lower_phase_sources anchor k (in_phase tag es) scheduled None) as Hs.
    destruct (lower_phase anchor k scheduled None (in_phase tag es)) as [ops after].
    cbn [fst pending_sources app] in Hk, Hs.
    apply Forall_app. split.
    + rewrite Forall_forall in Hk |- *. intros op Hop. exists tag.
      rewrite (Hk op Hop), Nat.sub_diag. repeat split; [lia |].
      apply Forall_forall. intros i Hi.
      assert (Hin : In i (flat_map emitted (in_phase tag es))).
      { rewrite <- Hs. apply in_flat_map. now exists op. }
      apply in_flat_map in Hin. destruct Hin as [[j e] [Hje Hem]].
      apply in_emitted in Hem. cbn in Hem. subst j.
      unfold in_phase in Hje. apply filter_In in Hje. destruct Hje as [Hes Htag].
      exists e. split; [exact Hes |]. now apply String.eqb_eq in Htag.
    + eapply Forall_impl; [| apply (IH (S k) after)]. cbn.
      intros op [tag' [Hnth [Hle Hsrc]]]. exists tag'.
      replace (op_phase op - k)%nat with (S (op_phase op - S k)) by lia.
      repeat split; [exact Hnth | lia | exact Hsrc].
Qed.


(** C4. When [compile] succeeds, the phases of its operations, as positions
    in [build_order], never go down along the sequence, so no operation of
    phase k+1 comes before one of phase k; within a phase the operations
    follow the insertion order of the elements they come from; and the
    phase of an operation is the phase tag of its elements. *)
Theorem compile_phase_order cfg bp anchor ops :
  compile cfg bp anchor = inr ops ->
  phases_in_order ops /\ insertion_order_kept ops /\ tagged_by bp ops.
Proof.
  unfold compile. intros H.
  destruct (check_operations cfg _) in H; [discriminate H |].
  injection H as <-. split; [| split].
  - apply lower_phases_order.
  - intros j.
    destruct (lower_phases_sources anchor (indexed (elements bp)) (build_order bp) j O [])
      as [-> | [tag [_ [_ ->]]]]; [constructor |].
    apply flat_map_emitted_sorted. unfold in_phase. apply filter_keeps_sorted.
    apply indexed_from_sorted.
  - unfold tagged_by.
    eapply Forall_impl;
      [| apply (lower_phases_tagged anchor (indexed (elements bp)) (build_order bp) O [])].
    cbn. intros op [tag [Hnth [_ Hsrc]]]. exists tag.
    rewrite Nat.sub_0_r in Hnth. split; [exact Hnth |].
    eapply Forall_impl; [| exact Hsrc]. cbn. intros i [e [Hin Hph]].
    exists e. apply in_indexed_from in Hin. rewrite Nat.sub_0_r in Hin. tauto.
Qed.

(** The house compiles to walls, roof, door and windows, in that order. *)
Lemma compile_phase_order_witness :
  phases_in_order
    [ mkOp (FillOp (0, 64, 0) (9, 67, 9) "oak_planks") 0 [0%nat; 2%nat];
      mkOp (FillOp (0, 68, 0) (9, 68, 9) "dark_oak_stairs") 1 [4%nat];
      mkOp (SetOp (5, 65, 0) "oak_door" (Some "south")) 2 [3%nat];
      mkOp (SetOp (2, 66, 0) "glass_pane" None) 3 [1%nat];
      mkOp (SetOp (7, 66, 0) "glass_pane" None) 3 [1%nat] ].
Proof.
  apply (compile_phase_order overworld house (0, 64, 0)). vm_compute. reflexivity.
Defined.


(** The first scenario of the specification: the cabin compiles to one
    fill from (0, 64, 0) to (9, 67, 9), and on a channel that acknowledges
    every command the result counts one operation, acknowledged. *)
Lemma scenario_cabin :
  (exists bp,
     ingest cabin = inr bp /\
     compile overworld bp (0, 64, 0) =
       inr [mkOp (FillOp (0, 64, 0) (9, 67, 9) "oak_planks") 0 [0%nat]]) /\
  exists time,
    outcome (build overworld steady (fun _ _ => Some cabin)
               (mkChannel (fun _ => Acknowledgement "Successfully filled 400 blocks") [] 0)
               "a cabin" (0, 64, 0)) =
    inr (mkBuildResult 1 1 1 0 time []).
Proof.
  split; [eexists; split; vm_compute; reflexivity | eexists; vm_compute; reflexivity].
Qed.

(** The second scenario: a roof with no roof phase is refused by [ingest]
    as an unknown phase, and [build] dispatches nothing. *)
Lemma scenario_roofless ch :
  ingest roofless = inl UnknownPhase /\
  build overworld steady (fun _ _ => Some roofless) ch "a roof" (0, 64, 0) =
    mkRun (inl (IngestFailed UnknownPhase)) [] ch.
Proof.
  split; reflexivity.
Qed.

(** C6. When the ingestion or the compilation of the blueprint fails,
    [build] fails with that very error, wrapped; the scheduler is handed no
    operation, and the channel is left as it was: nothing was written to
    it. *)
Theorem build_all_or_nothing cfg t oracle ch description anchor raw :
  oracle description anchor = Some raw ->
  (forall e, ingest raw = inl e ->
     build cfg t oracle ch description anchor = mkRun (inl (IngestFailed e)) [] ch) /\
  (forall bp e, ingest raw = inr bp -> compile cfg bp anchor = inl e ->
     build cfg t oracle ch description anchor = mkRun (inl (CompileFailed e)) [] ch) /\
  ((exists e, ingest raw = inl e) \/
   (exists bp e, ingest raw = inr bp /\ compile cfg bp anchor = inl e) ->
   handed (build cfg t oracle ch description anchor) = [] /\
   wire (channel (build cfg t oracle ch description anchor)) = wire ch).
Proof.
  intros Horacle. unfold build. rewrite Horacle. split; [| split].
  - intros e ->. reflexivity.
  - intros bp e -> ->. reflexivity.
  - intros [[e ->] | [bp [e [-> ->]]]]; split; reflexivity.
Qed.

(** A door that faces sideways does not compile: nothing reaches the
    channel. *)
Lemma build_all_or_nothing_witness :
  build overworld steady (fun _ _ => Some crooked) flaky "a door" (0, 64, 0) =
  mkRun (inl (CompileFailed (InvalidOperation 0))) [] flaky.
Proof.
  refine (proj1 (proj2 (build_all_or_nothing overworld steady (fun _ _ => Some crooked)
                          flaky "a door" (0, 64, 0) crooked eq_refl))
            (mkBlueprint (mkStructure 10 10 4 "oak_planks" "oak_planks")
               (raw_elements crooked) (raw_build_order crooked))
            (InvalidOperation 0) _ _); vm_compute; reflexivity.
Defined.

Lemma sent_and_waited_wire delay ch op :
  List.length (wire (sent_and_waited delay ch op)) = S (List.length (wire ch)).
Proof.
  cbn. rewrite length_app. cbn. lia.
Qed.

Lemma sent_and_waited_replies delay ch op :
  replies (sent_and_waited delay ch op) = replies ch.
Proof. reflexivity. Qed.

(** A transport failure with retries left: the record goes back to
    [pending] with one more attempt, and the operation is sent again. *)
Lemma attempt_transport_failure more delay r ch what :
  replies ch (List.length (wire ch)) = TransportFailure what ->
  attempt (S more) delay r ch =
  attempt more (2 * delay)
    (mkRecord (operation r)
       (on_retry (on_reply (on_send (dr_status r)) (TransportFailure what)))
       (S (attempts r)) (Some what))
    (sent_and_waited delay ch (operation r)).
Proof.
  intros H. cbn [attempt send]. rewrite H. reflexivity.
Qed.

(** An acknowledgement ends the operation. *)
Lemma attempt_acknowledged more delay r ch text :
  replies ch (List.length (wire ch)) = Acknowledgement text ->
  attempt more delay r ch =
  (mkRecord (operation r) (on_reply (on_send (dr_status r)) (Acknowledgement text))
     (S (attempts r)) None,
   snd (send ch (operation r)), true).
Proof.
  intros H. destruct more; cbn [attempt send]; rewrite H; reflexivity.
Qed.

Lemma dispatch_operation_retries t op ch :
  (forall i, (i < 3)%nat ->
     exists what, replies ch (List.length (wire ch) + i) = TransportFailure what) ->
  (exists text, replies ch (List.length (wire ch) + 3) = Acknowledgement text) ->
  dispatch_operation t op ch =
    (mkRecord op acknowledged 4 None,
     mkChannel (replies ch) (wire ch ++ repeat (serialize (shape op)) 4)
       (clock ch + 7 * backoff t),
     true).
Proof.
  intros Hfail [text Hack].
  destruct (Hfail 0%nat ltac:(lia)) as [w0 H0].
  destruct (Hfail 1%nat ltac:(lia)) as [w1 H1].
  destruct (Hfail 2%nat ltac:(lia)) as [w2 H2].
  rewrite Nat.add_0_r in H0.
  unfold dispatch_operation, max_retries.
  rewrite (attempt_transport_failure 2 _ _ ch w0 H0).
  cbn [operation dr_status attempts].
  rewrite (attempt_transport_failure 1 _ _ _ w1);
    [| rewrite sent_and_waited_wire, sent_and_waited_replies, <- H1; f_equal; lia].
  cbn [operation dr_status attempts].
  rewrite (attempt_transport_failure 0 _ _ _ w2);
    [| rewrite !sent_and_waited_wire, !sent_and_waited_replies, <- H2; f_equal; lia].
  cbn [operation dr_status attempts].
  rewrite (attempt_acknowledged 0 _ _ _ text);
    [| rewrite !sent_and_waited_wire, !sent_and_waited_replies, <- Hack; f_equal; lia].
  cbn [operation dr_status attempts on_send on_retry on_reply].
  unfold sent_and_waited, wait, send.
  cbn [fst snd replies wire clock repeat]. rewrite <- !app_assoc. cbn [app].
  do 2 f_equal. f_equal. lia.
Qed.

Lemma pace_same_wire t ch :
  wire (pace t ch) = wire ch /\ replies (pace t ch) = replies ch.
Proof.
  unfold pace. destruct (wire ch) eqn:E; cbn; rewrite ?E; now split.
Qed.

(** C7. On a channel whose next three replies are transport failures and
    whose fourth is an acknowledgement, the command of the operation is
    written to the channel four times, and nothing else is; the scheduler
    waits the backoff, twice the backoff and four times the backoff between
    the sends; and the record ends [acknowledged], not [failed], with an
    attempt count of 4 and no error. So it is when the scheduler dispatches
    that one operation. *)
Theorem retry_then_acknowledged t op ch :
  (forall i, (i < 3)%nat ->
     exists what, replies ch (List.length (wire ch) + i) = TransportFailure what) ->
  (exists text, replies ch (List.length (wire ch) + 3) = Acknowledgement text) ->
  dispatch_operation t op ch =
    (mkRecord op acknowledged 4 None,
     mkChannel (replies ch) (wire ch ++ repeat (serialize (shape op)) 4)
       (clock ch + 7 * backoff t),
     true) /\
  dispatch t [op] ch =
    ([mkRecord op acknowledged 4 None],
     mkChannel (replies ch) (wire ch ++ repeat (serialize (shape op)) 4)
       (clock (pace t ch) + 7 * backoff t)).
Proof.
  intros Hfail Hack. split.
  - now apply dispatch_operation_retries.
  - destruct (pace_same_wire t ch) as [Hw Hr].
    unfold dispatch. cbn [dispatch_from].
    rewrite (dispatch_operation_retries t op (pace t ch));
      [| rewrite Hw, Hr; exact Hfail | rewrite Hw, Hr; exact Hack].
    rewrite Hw, Hr. reflexivity.
Qed.

(** One block on the flaky channel: sent four times, acknowledged at the
    fourth attempt, after 350 ms of backoff. *)
Lemma retry_then_acknowledged_witness :
  dispatch_operation steady one_block flaky =
    (mkRecord one_block acknowledged 4 None,
     mkChannel (replies flaky) (repeat "/setblock 0 64 0 stone" 4) 350,
     true) /\
  dispatch steady [one_block] flaky =
    ([mkRecord one_block acknowledged 4 None],
     mkChannel (replies flaky) (repeat "/setblock 0 64 0 stone" 4) 350).
Proof.
  apply (retry_then_acknowledged steady one_block flaky).
  - intros i Hi. exists "timeout". cbn.
    destruct i as [| [| [| i]]]; [reflexivity | reflexivity | reflexivity | lia].
  - exists "ok". reflexivity.
Defined.

End CoreFacts.

(** * The whole component: what its handlers keep and what they never do *)

Section PageFacts.
Import Js.
Import Route.
Import Chat.
Import Feedback.
Import Page.

Lemma trim_start_nil l : trim_start l = [] <-> forallb is_white_space l = true.
Proof.
  induction l as [| c l IH]; cbn; [tauto |].
  destruct (is_white_space c); cbn; [exact IH |]. split; discriminate.
Qed.

Lemma trim_start_suffix l : exists front, l = front ++ trim_start l.
Proof.
  induction l as [| c l [front IH]]; cbn; [now exists [] |].
  destruct (is_white_space c); [| now exists []].
  exists (c :: front). cbn. now rewrite <- IH.
Qed.

Lemma trim_start_head l c rest : trim_start l = c :: rest -> is_white_space c = false.
Proof.
  induction l as [| x l IH]; cbn; [discriminate |].
  destruct (is_white_space x) eqn:Hx; [exact IH |].
  intros H. injection H as <- _. exact Hx.
Qed.

Lemma string_of_list_nil l : string_of_list_ascii l = "" -> l = [].
Proof.
  destruct l; [reflexivity | discriminate].
Qed.

(** [trim] leaves nothing exactly when every character is white space. *)
Lemma trim_empty_iff s :
  trim s = "" <-> forallb is_white_space (list_ascii_of_string s) = true.
Proof.
  unfold trim. split.
  - intros H. apply string_of_list_nil in H.
    assert (Hinner : trim_start (rev (trim_start (list_ascii_of_string s))) = []).
    { destruct (trim_start (rev (trim_start (list_ascii_of_string s)))) as [| c l];
        [reflexivity |]. cbn in H. now destruct (rev l). }
    apply trim_start_nil in Hinner.
    destruct (trim_start (list_ascii_of_string s)) as [| c rest] eqn:Hts;
      [now apply trim_start_nil |].
    pose proof (trim_start_head _ _ _ Hts) as Hc.
    rewrite forallb_forall in Hinner.
    rewrite (Hinner c) in Hc; [discriminate |].
    apply in_rev. rewrite rev_involutive. now left.
  - intros H. apply trim_start_nil in H. rewrite H. reflexivity.
Qed.

Lemma has_text_iff s : has_text s <-> trim s <> "".
Proof.
  rewrite trim_empty_iff. unfold has_text. split.
  - intros [c [Hin Hc]] Hall. rewrite forallb_forall in Hall.
    rewrite (Hall c Hin) in Hc. discriminate.
  - intros Hnot.
    induction (list_ascii_of_string s) as [| c l IH]; cbn in Hnot; [now contradiction Hnot |].
    destruct (is_white_space c) eqn:Hc.
    + destruct IH as [x [Hin Hx]]; [exact Hnot |]. exists x. split; [now right | exact Hx].
    + exists c. split; [now left | exact Hc].
Qed.

(** X1. [handleSend] issues a request exactly when the input has a
    character that is no white space and no build is running; the request
    then is one POST to [/api/build] whose description is the input as it
    was typed, white space around it included, and the input is cleared. *)
Theorem handleSend_sends_what_was_typed now rnd s :
  (snd (handleSend now rnd s) <> [] <-> has_text (input s) /\ isBuilding s = false) /\
  (snd (handleSend now rnd s) <> [] ->
   snd (handleSend now rnd s) =
     [mkFetchCall "/api/build" "POST" [("Content-Type", "application/json")]
        (JObj [("description", JStr (input s))])] /\
   input (fst (handleSend now rnd s)) = "" /\
   running (fst (handleSend now rnd s)) = running s ++ [AwaitFetch (input s)]).
Proof.
  rewrite has_text_iff.
  destruct (is_empty (trim (input s)) || isBuilding s) eqn:Hg.
  - unfold handleSend. rewrite Hg. cbn [snd].
    apply orb_true_iff in Hg. rewrite is_empty_spec in Hg.
    split; [split |]; [intros H; now contradiction H | | intros H; now contradiction H].
    intros [Ht Hb]. destruct Hg as [Hg | Hg]; [contradiction | congruence].
  - destruct (handleSend_started now rnd s Hg) as [_ [Hrun Hsent]].
    apply orb_false_iff in Hg. destruct Hg as [Hempty Hb].
    rewrite Hsent, Hrun. split; [split |].
    + intros _. split; [| exact Hb]. intros Ht. apply is_empty_spec in Ht. congruence.
    + discriminate.
    + intros _. repeat split. unfold handleSend.
      rewrite Hempty, Hb. reflexivity.
Qed.





Lemma awaiting_is_building s :
  single_flight s ->
  existsb (fun c => match c with AwaitFetch _ => true | AwaitJson _ _ _ => false end)
    (running s) = true ->
  isBuilding s = true.
Proof.
  intros [Hiff _] Hex. apply Hiff. intros Hnil. rewrite Hnil in Hex. discriminate.
Qed.

Lemma handleSend_progress now rnd s :
  progress_ok s -> progress_ok (fst (handleSend now rnd s)).
Proof.
  intros H. unfold handleSend.
  destruct (is_empty (trim (input s)) || isBuilding s); [exact H |].
  unfold progress_ok. cbn.
  split; [lra | split; [lra | split; [discriminate | vm_compute; reflexivity]]].
Qed.

Lemma finish_progress s : progress_ok (finish s).
Proof.
  unfold progress_ok. cbn.
  split; [lra | split; [lra | split; [lra | vm_compute; reflexivity]]].
Qed.

Lemma chat_step_progress s e :
  match e with
  | Tick rnd => unit_interval rnd
  | _ => True
  end ->
  single_flight s -> progress_ok s -> progress_ok (fst (Chat.step s e)).
Proof.
  intros Hfair Hsf Hok.
  destruct e as [now rnd | text | now rnd | rnd | i r now | i now rnd]; cbn [Chat.step fst].
  - unfold hydrate. destruct (isHydrated s); exact Hok.
  - exact Hok.
  - now apply handleSend_progress.
  - unfold tick.
    destruct (existsb _ (running s)) eqn:Hex; [| exact Hok].
    pose proof (awaiting_is_building s Hsf Hex) as Hb.
    destruct Hok as [Hlo [_ [_ Hd]]].
    destruct (progress_update_range rnd (buildProgress s) Hfair Hlo Hd)
      as [Hlo' [Hhi' Hd']].
    unfold progress_ok. cbn.
    split; [exact Hlo' | split; [exact Hhi' | split; [congruence | exact Hd']]].
  - unfold fetch_settled.
    destruct (nth_error (running s) i) as [[d | d st b] |] eqn:Hnth; try exact Hok.
    destruct r as [| st rbody]; [apply finish_progress |].
    assert (Hb : isBuilding s = true).
    { destruct Hsf as [Hiff _]. apply Hiff. intros Hnil. rewrite Hnil in Hnth.
      destruct i; discriminate Hnth. }
    unfold progress_ok. cbn.
    split; [lra | split; [lra | split; [congruence | vm_compute; reflexivity]]].
  - unfold json_settled.
    destruct (nth_error (running s) i) as [[d | d st b] |]; try exact Hok.
    match goal with
    | |- progress_ok (match ?x with inl _ => _ | inr _ => _ end) => destruct x
    end; apply finish_progress.
Qed.

Lemma handleFeedbackSubmit_fields rating text now iso s st :
  let s' := fst (handleFeedbackSubmit rating text now iso s st) in
  input s' = input s /\ isBuilding s' = isBuilding s /\
  buildProgress s' = buildProgress s /\ running s' = running s /\
  isHydrated s' = isHydrated s.
Proof.
  unfold handleFeedbackSubmit.
  destruct (pendingFeedback s) as [[pid d] |]; [| now repeat split].
  destruct (parse_stored st) as [e | existing]; [now repeat split |].
  destruct (push existing _); now repeat split.
Qed.

Lemma handleFeedbackDismiss_fields s :
  let s' := handleFeedbackDismiss s in
  input s' = input s /\ isBuilding s' = isBuilding s /\
  buildProgress s' = buildProgress s /\ running s' = running s /\
  isHydrated s' = isHydrated s.
Proof.
  unfold handleFeedbackDismiss.
  destruct (pendingFeedback s) as [[pid d] |]; now repeat split.
Qed.

Lemma page_step_chat p e :
  (exists ce, fst (step p e) = mkPage (fst (Chat.step (chat p) ce)) (store p) /\
              snd (step p e) = snd (Chat.step (chat p) ce) /\
              (fair e -> match ce with Tick rnd => unit_interval rnd | _ => True end)) \/
  (snd (step p e) = [] /\
   input (chat (fst (step p e))) = input (chat p) /\
   isBuilding (chat (fst (step p e))) = isBuilding (chat p) /\
   buildProgress (chat (fst (step p e))) = buildProgress (chat p) /\
   running (chat (fst (step p e))) = running (chat p) /\
   isHydrated (chat (fst (step p e))) = isHydrated (chat p)).
Proof.
  destruct e as [ce | key shift now rnd | rating text now iso |]; cbn [step].
  - left. exists ce. destruct (Chat.step (chat p) ce) as [s sent]. cbn.
    repeat split. destruct ce; intros H; exact I || exact H.
  - unfold handleKeyDown. destruct (String.eqb key "Enter" && negb shift).
    + left. exists (Send now rnd). cbn [Chat.step].
      destruct (handleSend now rnd (chat p)) as [s sent]. now repeat split.
    + right. now repeat split.
  - right.
    pose proof (handleFeedbackSubmit_fields rating text now iso (chat p) (store p)) as H.
    destruct (handleFeedbackSubmit rating text now iso (chat p) (store p)) as [s st].
    cbn in H |- *. tauto.
  - right. pose proof (handleFeedbackDismiss_fields (chat p)) as H. cbn in H |- *. tauto.
Qed.


Lemma page_invariant p : reachable p -> single_flight (chat p) /\ progress_ok (chat p).
Proof.
  induction 1 as [st | p e _ [Hsf Hok] Hfair].
  - split.
    + split; [| cbn; lia]. split; [discriminate | intros H; now contradiction H].
    + unfold progress_ok. cbn.
      split; [lra | split; [lra | split; [lra | vm_compute; reflexivity]]].
  - destruct (page_step_chat p e) as [[ce [-> [_ Hce]]] | [_ [_ [Hb [Hp [Hr _]]]]]].
    + cbn [chat]. split; [now apply single_flight_step |].
      apply chat_step_progress; [| exact Hsf | exact Hok].
      specialize (Hce Hfair). destruct ce; exact I || exact Hce.
    + unfold single_flight, progress_ok. rewrite Hb, Hp, Hr. now split.
Qed.

Lemma shown_percent_nonneg s : (0 <= buildProgress s)%Q -> 0 <= shown_percent s.
Proof.
  intros H. unfold shown_percent, bar_width.
  assert (Hmin : (0 <= Qmin (buildProgress s) 100 + (1 # 2))%Q).
  { destruct (Q.min_spec (buildProgress s) 100) as [[_ ->] | [_ ->]]; lra. }
  apply Qfloor_resp_le in Hmin. exact Hmin.
Qed.

(** X3. In every page the component can reach, with the draws of
    [Math.random()] in [0, 1), the progress is at least 0 and below 103,
    the percentage shown is between 0 and 100, and the progress is 0
    whenever no build is shown as running. *)
Theorem progress_stays_in_range p :
  reachable p ->
  (0 <= buildProgress (chat p))%Q /\ (buildProgress (chat p) < 103)%Q /\
  0 <= shown_percent (chat p) <= 100 /\
  (isBuilding (chat p) = false -> (buildProgress (chat p) == 0)%Q).
Proof.
  intros H. destruct (page_invariant p H) as [_ [Hlo [Hhi [Hidle _]]]].
  repeat split; try assumption.
  - now apply shown_percent_nonneg.
  - apply shown_percent_le_100.
Qed.

(** After a send and a tick that draws 0.4 the progress is 7. *)
Lemma progress_stays_in_range_witness :
  (0 <= buildProgress (chat ticked_page))%Q /\
  (buildProgress (chat ticked_page) < 103)%Q /\
  0 <= shown_percent (chat ticked_page) <= 100 /\
  (isBuilding (chat ticked_page) = false -> (buildProgress (chat ticked_page) == 0)%Q).
Proof.
  apply (progress_stays_in_range ticked_page).
  unfold ticked_page.
  apply reachable_next; [apply reachable_next; [apply reachable_next |] |].
  - apply reachable_start.
  - exact I.
  - split; vm_compute; reflexivity || discriminate.
  - split; vm_compute; reflexivity || discriminate.
Defined.


Lemma run_ticks s draws :
  existsb awaits_fetch (running s) = true ->
  Chat.run s (map Tick draws) =
    (setBuildProgress (after_ticks draws) s, []).
Proof.
  revert s. induction draws as [| r draws IH]; intros s Hex.
  - cbn. destruct s; reflexivity.
  - cbn [map Chat.run Chat.step]. unfold tick.
    change (existsb _ (running s)) with (existsb awaits_fetch (running s)).
    rewrite Hex. rewrite IH by exact Hex. cbn. destruct s; reflexivity.
Qed.

Lemma after_ticks_lower draws :
  forall p k, Forall unit_interval draws -> 0 <= k ->
    (Qmin (inject_Z (3 * k)) 90 <= p)%Q ->
    (Qmin (inject_Z (3 * (k + Z.of_nat (List.length draws)))) 90
       <= after_ticks draws p)%Q.
Proof.
  induction draws as [| r draws IH]; intros p k Hall Hk Hp.
  - cbn [List.length Z.of_nat after_ticks fold_left]. rewrite Z.add_0_r. exact Hp.
  - apply Forall_cons_iff in Hall. destruct Hall as [[H0 H1] Hall].
    cbn [after_ticks fold_left]. fold (after_ticks draws (progress_update r p)).
    replace (k + Z.of_nat (List.length (r :: draws)))
      with (k + 1 + Z.of_nat (List.length draws)) by (cbn [List.length]; lia).
    apply IH; [exact Hall | lia | now apply progress_update_step].
Qed.

(** X4. While a build awaits its fetch, ticks of the progress interval
    change nothing but the progress, and after n of them, from a progress
    of at least 3k, the progress is at least the smaller of 3(k + n) and
    90, every sum rounded as the code rounds it: thirty ticks from a fresh
    build bring the bar to 90 or above. *)
Theorem ticks_reach_the_cap s draws k :
  existsb awaits_fetch (running s) = true ->
  Forall unit_interval draws ->
  0 <= k -> (inject_Z (3 * k) <= buildProgress s)%Q ->
  let n := Z.of_nat (List.length draws) in
  Chat.run s (map Tick draws) = (setBuildProgress (after_ticks draws) s, []) /\
  (Qmin (inject_Z (3 * (k + n))) 90
     <= buildProgress (fst (Chat.run s (map Tick draws))))%Q /\
  (30 <= k + n -> (90 <= buildProgress (fst (Chat.run s (map Tick draws))))%Q).
Proof.
  intros Hex Hall Hk Hp n. rewrite (run_ticks s draws Hex).
  cbn [fst setBuildProgress buildProgress].
  assert (Hlow : (Qmin (inject_Z (3 * (k + n))) 90
                    <= after_ticks draws (buildProgress s))%Q).
  { apply after_ticks_lower; [exact Hall | exact Hk |].
    eapply Qle_trans; [apply Q.le_min_l | exact Hp]. }
  split; [reflexivity |]. split; [exact Hlow |].
  intros Hfar. eapply Qle_trans; [| exact Hlow].
  apply Q.min_glb; [| apply Qle_refl].
  change 90%Q with (inject_Z 90). rewrite <- Zle_Qle. lia.
Qed.

(** Thirty ticks that all draw 0 bring a fresh build to exactly 90. *)
Lemma ticks_reach_the_cap_witness :
  (90 <= buildProgress
           (fst (Chat.run (fst (handleSend 0 0 (setInput "a cabin" initial)))
                   (map Tick (repeat 0%Q 30)))))%Q.
Proof.
  apply (ticks_reach_the_cap (fst (handleSend 0 0 (setInput "a cabin" initial)))
           (repeat 0%Q 30) 0).
  - reflexivity.
  - apply Forall_forall. intros r Hr. apply repeat_spec in Hr. subst r.
    split; vm_compute; reflexivity || discriminate.
  - lia.
  - vm_compute. discriminate.
  - vm_compute. discriminate.
Defined.


Lemma json_settled_ends s d st rbody now rnd :
  running s = [AwaitJson d st rbody] ->
  let s' := json_settled 0 now rnd s in
  isBuilding s' = false /\ buildProgress s' = 0%Q /\ running s' = [] /\
  input s' = input s /\
  exists m, messages s' = messages s ++ [m] /\ sender m = steve /\
            id m = stamp (now + 2).
Proof.
  intros Hrun. unfold json_settled. rewrite Hrun. cbn [nth_error remove_nth].
  destruct rbody as [parsed |].
  - destruct (ok st).
    + destruct (complete_content rnd parsed); cbn; repeat split; eexists; repeat split.
    + destruct (failure_content parsed); cbn; repeat split; eexists; repeat split.
  - cbn. repeat split. eexists. repeat split.
Qed.

(** X5. A build always ends: from an idle state whose input has text,
    [handleSend], then the fetch settling in whatever way, then the body of
    the response if there was one, leave the component idle again, with
    progress 0, an empty input, nothing awaited, and exactly three messages
    more: what the user typed, Steve's building line, and one closing
    message from Steve. *)
Theorem build_always_ends s now rnd r now1 now2 rnd2 :
  has_text (input s) -> isBuilding s = false -> running s = [] ->
  let started := fst (handleSend now rnd s) in
  let ended := json_settled 0 now2 rnd2 (fetch_settled 0 r now1 started) in
  isBuilding ended = false /\ buildProgress ended = 0%Q /\ running ended = [] /\
  input ended = "" /\
  exists said closing,
    messages ended =
      messages s ++
      [ mkMessage (stamp now) [Text (input s)] user now None false None;
        said; closing ] /\
    sender said = steve /\ steveMood said = Some building /\
    sender closing = steve.
Proof.
  intros Htext Hidle Hrun started ended.
  assert (Hg : is_empty (trim (input s)) || isBuilding s = false).
  { apply orb_false_iff. split; [| exact Hidle].
    apply has_text_iff in Htext. destruct (is_empty (trim (input s))) eqn:E; [| reflexivity].
    apply is_empty_spec in E. contradiction. }
  assert (Hstarted : started =
    mkState (messages s ++
               [mkMessage (stamp now) [Text (input s)] user now None false None] ++
               [mkMessage (stamp (now + 1)) [Text (pick STEVE_BUILDING_MESSAGES rnd)]
                  steve now (Some building) false None])
      "" true 0 (isHydrated s) (pendingFeedback s) [AwaitFetch (input s)]).
  { subst started. unfold handleSend. rewrite Hg.
    unfold setRunning, setMessages, setBuildProgress, setIsBuilding, setInput.
    cbn [fst messages input isBuilding buildProgress isHydrated pendingFeedback running].
    rewrite Hrun, <- app_assoc. reflexivity. }
  subst ended. rewrite Hstarted. clear Hstarted started.
  destruct r as [| st rbody].
  - cbn. repeat split. do 2 eexists. rewrite <- app_assoc. cbn. repeat split.
  - match goal with
    | |- context [fetch_settled 0 _ now1 ?x] => set (s1 := fetch_settled 0 (Responded st rbody) now1 x)
    end.
    assert (Hr1 : running s1 = [AwaitJson (input s) st rbody]) by reflexivity.
    destruct (json_settled_ends s1 (input s) st rbody now2 rnd2 Hr1)
      as [Hb [Hp [Hr [Hi [m [Hm [Hs _]]]]]]].
    repeat split; try assumption.
    exists (mkMessage (stamp (now + 1)) [Text (pick STEVE_BUILDING_MESSAGES rnd)]
              steve now (Some building) false None), m.
    rewrite Hm. subst s1. cbn. rewrite <- !app_assoc. cbn. repeat split. exact Hs.
Qed.

(** A cabin that the server cannot be reached for: three messages. *)
Lemma build_always_ends_witness :
  isBuilding (json_settled 0 2 0
                (fetch_settled 0 Rejected 1
                   (fst (handleSend 0 0 (setInput "a cabin" initial))))) = false.
Proof.
  apply (build_always_ends (setInput "a cabin" initial) 0 0 Rejected 1 2 0).
  - exists "a"%char. split; [now left | reflexivity].
  - reflexivity.
  - reflexivity.
Defined.

(** X6. A response that is ok but whose body is not JSON, is null, or has
    no [execution_time] that is a number, is reported as an unreachable
    build server: the closing message is the one of the catch block, no
    feedback card is offered, and the pending feedback is left as it was. *)
Theorem ok_without_time_is_unreachable s d st rbody now rnd :
  running s = [AwaitJson d st rbody] ->
  ok st = true ->
  match rbody with
  | Some result => numeric_time result = false
  | None => True
  end ->
  messages (json_settled 0 now rnd s) = messages s ++ [unreachable_message now] /\
  pendingFeedback (json_settled 0 now rnd s) = pendingFeedback s /\
  isBuilding (json_settled 0 now rnd s) = false.
Proof.
  intros Hrun Hok Htime. unfold json_settled. rewrite Hrun. cbn [nth_error remove_nth].
  rewrite Hok. destruct rbody as [result |]; [| cbn; repeat split].
  assert (Hc : exists e, complete_content rnd result = inl e).
  { unfold complete_content. unfold numeric_time in Htime.
    destruct (get (Some result) "blocks_placed") as [e | blocks]; [now exists e |].
    destruct (get (Some result) "execution_time") as [e | [v |]];
      [now exists e | | now exists TypeError].
    destruct v; now exists TypeError. }
  destruct Hc as [e ->]. cbn. repeat split.
Qed.

(** The builder answered 200 with the block count alone. *)
Lemma ok_without_time_is_unreachable_witness :
  messages (json_settled 0 7 0 timeless_state) =
    messages timeless_state ++ [unreachable_message 7].
Proof.
  apply (ok_without_time_is_unreachable timeless_state "a cabin" 200
           (Some (JObj [("blocks_placed", JNum (Finite 42))])) 7 0); reflexivity.
Defined.



Lemma hide_card_without pid m : without_card (hide_card pid m) = without_card m.
Proof.
  unfold hide_card. destruct (MessageId_eqb (id m) pid); reflexivity.
Qed.



Lemma hide_card_flag pid m :
  showFeedback (hide_card pid m) = true -> hide_card pid m = m /\ showFeedback m = true.
Proof.
  unfold hide_card. destruct (MessageId_eqb (id m) pid); [discriminate | tauto].
Qed.






(** X8. A feedback can be lost without a word: when no feedback is
    pending, or the storage holds a text that is not JSON or a JSON value
    that is no array, a click on Submit changes neither the state of the
    chat nor the storage, and the card still shows its thanks. *)
Theorem feedback_can_be_lost c r now iso s st :
  rating c = Some r ->
  pendingFeedback s = None \/ (forall items, parse_stored st <> inr (JArr items)) ->
  submit_from_card c now iso s st = (setSubmitted true c, s, st) /\
  render_card (setSubmitted true c) = Thanks.
Proof.
  intros Hr Hwhy. unfold submit_from_card, handleSubmit. rewrite Hr.
  split; [| reflexivity].
  unfold handleFeedbackSubmit.
  destruct (pendingFeedback s) as [[pid d] |]; [| reflexivity].
  destruct Hwhy as [Hnone | Hbad]; [discriminate Hnone |].
  destruct (parse_stored st) as [e | existing] eqn:Hst; [reflexivity |].
  destruct existing; try reflexivity. now contradiction (Hbad items).
Qed.

(** Three stars on a card whose build is no longer pending. *)
Lemma feedback_can_be_lost_witness :
  submit_from_card (setRating 3 new_card) 9 "2026-01-29T12:00:00.000Z" initial NoItem =
  (setSubmitted true (setRating 3 new_card), initial, NoItem).
Proof.
  apply (feedback_can_be_lost (setRating 3 new_card) 3 9 "2026-01-29T12:00:00.000Z"
           initial NoItem).
  - reflexivity.
  - left. reflexivity.
Defined.



Lemma card_invariant c :
  card_reachable c ->
  (forall r, rating c = Some r -> In r STARS) /\
  (submitted c = true -> rating c <> None).
Proof.
  induction 1 as [| c e _ [Hr Hs] Hok].
  - split; [discriminate | discriminate].
  - unfold card_step. destruct (submitted c) eqn:Hsub.
    { cbn [snd]. split; [exact Hr | intros _; exact (Hs eq_refl)]. }
    destruct e as [star | text | |]; cbn [snd].
    + split; cbn; [| congruence]. intros r H. injection H as <-. exact Hok.
    + split; cbn; [exact Hr | congruence].
    + unfold submit_disabled, handleSubmit.
      destruct (rating c) as [r |] eqn:Hrat; cbn [snd].
      * split; cbn; [now rewrite Hrat | rewrite Hrat; discriminate].
      * split; [now rewrite Hrat | congruence].
    + split; [exact Hr | congruence].
Qed.

Lemma star_cases r : In r STARS -> r = 1 \/ r = 2 \/ r = 3 \/ r = 4 \/ r = 5.
Proof.
  cbn. intros [<- | [<- | [<- | [<- | [<- | []]]]]]; tauto.
Qed.

(** X10. Every card that can be reached from a new one has no rating, or
    one from 1 to 5; with a rating r exactly r stars are gold and a line
    stands under them; with none, Submit is disabled and no star is gold.
    What a card hands to [onSubmit] is such a rating and the comment as
    typed, Steve has a reply for it, and the card then shows its thanks and
    hands nothing more. *)
Theorem card_ratings c :
  card_reachable c ->
  (forall r, rating c = Some r ->
     1 <= r <= 5 /\ lit_stars c = Z.to_nat r /\ rating_label c <> None /\
     submit_disabled c = false) /\
  (rating c = None ->
     lit_stars c = 0%nat /\ submit_disabled c = true /\ submitted c = false) /\
  (forall e r text c',
     card_step c e = (Some (OnSubmit r text), c') ->
     1 <= r <= 5 /\ text = comment c /\ responseMessages r <> None /\
     render_card c' = Thanks /\
     forall e', fst (card_step c' e') = None /\ snd (card_step c' e') = c').
Proof.
  intros Hreach. destruct (card_invariant c Hreach) as [Hr Hs].
  split; [| split].
  - intros r Hrat. specialize (Hr r Hrat).
    unfold lit_stars, star_lit, rating_label, submit_disabled. rewrite Hrat.
    destruct (star_cases r Hr) as [-> | [-> | [-> | [-> | ->]]]];
      repeat split; try lia; try discriminate.
  - intros Hrat. unfold lit_stars, star_lit, submit_disabled. rewrite Hrat.
    repeat split. destruct (submitted c) eqn:E; [| reflexivity].
    now contradiction (Hs eq_refl).
  - intros e r text c' Hstep. unfold card_step in Hstep.
    destruct (submitted c); [discriminate Hstep |].
    destruct e as [star | t | |]; try discriminate Hstep.
    unfold submit_disabled, handleSubmit in Hstep.
    destruct (rating c) as [r0 |] eqn:Hrat; [| discriminate Hstep].
    injection Hstep as <- <- <-. specialize (Hr r0 eq_refl).
    split; [| split; [reflexivity | split; [| split; [reflexivity |]]]].
    + destruct (star_cases r0 Hr) as [-> | [-> | [-> | [-> | ->]]]]; lia.
    + destruct (star_cases r0 Hr) as [-> | [-> | [-> | [-> | ->]]]]; discriminate.
    + intros e'. split; reflexivity.
Qed.

(** Four stars: four of them gold. *)
Lemma card_ratings_witness :
  card_reachable (setRating 4 new_card) /\
  1 <= 4 <= 5 /\ lit_stars (setRating 4 new_card) = Z.to_nat 4 /\
  rating_label (setRating 4 new_card) <> None /\
  submit_disabled (setRating 4 new_card) = false.
Proof.
  assert (Hreach : card_reachable (setRating 4 new_card)).
  { apply (card_next new_card (ClickStar 4)); [apply card_new |]. cbn. tauto. }
  split; [exact Hreach |].
  destruct (card_ratings (setRating 4 new_card) Hreach) as [Hrated _].
  exact (Hrated 4 eq_refl).
Defined.


Lemma keeps_history_append l added : keeps_history l (l ++ added).
Proof.
  exists l, added. split; [reflexivity |].
  induction l; constructor; [tauto | assumption].
Qed.

Lemma keeps_history_refl l : keeps_history l l.
Proof.
  rewrite <- (app_nil_r l) at 2. apply keeps_history_append.
Qed.

Lemma Forall2_hide pid l :
  Forall2 (fun m m' =>
    without_card m' = without_card m /\
    (showFeedback m' = true -> showFeedback m = true)) l (map (hide_card pid) l).
Proof.
  induction l as [| m l IH]; constructor; [| exact IH].
  split; [apply hide_card_without |]. intros H. now apply hide_card_flag in H.
Qed.

Lemma keeps_history_hide pid l added :
  keeps_history l (map (hide_card pid) (l ++ added)).
Proof.
  exists (map (hide_card pid) l), (map (hide_card pid) added).
  split; [apply map_app | apply Forall2_hide].
Qed.

Lemma chat_step_history s e :
  isHydrated s = true -> keeps_history (messages s) (messages (fst (Chat.step s e))).
Proof.
  intros Hh.
  destruct e as [now rnd | text | now rnd | rnd | i r now | i now rnd]; cbn [Chat.step fst].
  - unfold hydrate. rewrite Hh. apply keeps_history_refl.
  - apply keeps_history_refl.
  - unfold handleSend. destruct (is_empty (trim (input s)) || isBuilding s);
      [apply keeps_history_refl |].
    cbn [fst messages setRunning setMessages setBuildProgress setIsBuilding setInput].
    rewrite <- app_assoc. apply keeps_history_append.
  - unfold tick. destruct (existsb _ _); apply keeps_history_refl.
  - unfold fetch_settled.
    destruct (nth_error (running s) i) as [[d | d st b] |]; try apply keeps_history_refl.
    destruct r; [apply keeps_history_append | apply keeps_history_refl].
  - unfold json_settled.
    destruct (nth_error (running s) i) as [[d | d st b] |]; try apply keeps_history_refl.
    destruct b as [parsed |]; [| apply keeps_history_append].
    destruct (ok st).
    + destruct (complete_content rnd parsed); apply keeps_history_append.
    + destruct (failure_content parsed); apply keeps_history_append.
Qed.

(** X11. Once the welcome message is set, no handler of the component
    loses or reorders a message: after any event the messages that were
    there are still there, in order and unchanged but for a feedback card
    that may have been switched off (never on), and new messages come last;
    the component stays hydrated. *)
Theorem history_is_kept p e :
  isHydrated (chat p) = true ->
  keeps_history (messages (chat p)) (messages (chat (fst (step p e)))) /\
  isHydrated (chat (fst (step p e))) = true.
Proof.
  intros Hh. split.
  - destruct e as [ce | key shift now rnd | rating text now iso |]; cbn [step].
    + pose proof (chat_step_history (chat p) ce Hh) as H.
      destruct (Chat.step (chat p) ce) as [s sent]. exact H.
    + unfold handleKeyDown. destruct (String.eqb key "Enter" && negb shift).
      * pose proof (chat_step_history (chat p) (Send now rnd) Hh) as H.
        cbn [Chat.step] in H. destruct (handleSend now rnd (chat p)) as [s sent]. exact H.
      * apply keeps_history_refl.
    + unfold handleFeedbackSubmit.
      destruct (pendingFeedback (chat p)) as [[pid d] |]; [| apply keeps_history_refl].
      destruct (parse_stored (store p)) as [err | existing]; [apply keeps_history_refl |].
      destruct (push existing _); [apply keeps_history_refl |].
      cbn [fst chat messages setMessages setPendingFeedback]. apply keeps_history_hide.
    + cbn [fst chat]. unfold handleFeedbackDismiss.
      destruct (pendingFeedback (chat p)) as [[pid d] |]; [| apply keeps_history_refl].
      cbn [messages setMessages setPendingFeedback].
      rewrite <- (app_nil_r (messages (chat p))) at 2. apply keeps_history_hide.
  - destruct (page_step_chat p e) as [[ce [-> _]] | [_ [_ [_ [_ [_ ->]]]]]]; [| exact Hh].
    cbn [chat]. destruct ce as [now rnd | text | now rnd | rnd | i r now | i now rnd];
      cbn [Chat.step fst].
    + unfold hydrate. now rewrite Hh.
    + exact Hh.
    + unfold handleSend. destruct (is_empty (trim (input (chat p))) || isBuilding (chat p));
        exact Hh.
    + unfold tick. destruct (existsb _ _); exact Hh.
    + unfold fetch_settled.
      destruct (nth_error (running (chat p)) i) as [[d | d st b] |]; try exact Hh.
      destruct r; exact Hh.
    + unfold json_settled.
      destruct (nth_error (running (chat p)) i) as [[d | d st b] |]; try exact Hh.
      destruct b as [parsed |]; [| exact Hh].
      destruct (ok st);
        [destruct (complete_content rnd parsed) | destruct (failure_content parsed)];
        exact Hh.
Qed.

(** Skipping the feedback of the cabin keeps its four messages. *)
Lemma history_is_kept_witness :
  keeps_history (messages (chat (mkPage rated_state NoItem)))
    (messages (chat (fst (step (mkPage rated_state NoItem) FeedbackDismiss)))).
Proof.
  apply (history_is_kept (mkPage rated_state NoItem) FeedbackDismiss).
  reflexivity.
Defined.


(** X12. In every page the component can reach, the progress bar is shown
    exactly while a [handleSend] is awaited, and so long the input and the
    Build button are disabled, the button shows its spinner and Steve holds
    his pickaxe; the bar then has a width and a percentage between 0 and
    100. While nothing is awaited the button is enabled exactly when the
    input has a character that is no white space. *)
Theorem view_is_locked_while_building p :
  reachable p ->
  (progress_bar (render (chat p)) <> None <-> running (chat p) <> []) /\
  (input_disabled (render (chat p)) = true <-> running (chat p) <> []) /\
  (running (chat p) <> [] ->
     button_disabled (render (chat p)) = true /\
     button_spinner (render (chat p)) = true /\
     SteveAvatar_pickaxe (header_mood (render (chat p))) = true) /\
  (running (chat p) = [] ->
     (button_disabled (render (chat p)) = false <-> has_text (input (chat p))) /\
     SteveAvatar_pickaxe (header_mood (render (chat p))) = false) /\
  (forall w pc, progress_bar (render (chat p)) = Some (w, pc) ->
     (0 <= w)%Q /\ (w <= 100)%Q /\ 0 <= pc <= 100).
Proof.
  intros Hreach. destruct (page_invariant p Hreach) as [[Hiff _] [Hlo _]].
  unfold render. cbn [progress_bar input_disabled button_disabled button_spinner header_mood].
  unfold build_button_disabled, Button_disabled.
  destruct (isBuilding (chat p)) eqn:Hb.
  - assert (Hrun : running (chat p) <> []) by now apply Hiff.
    split; [split; [auto | discriminate] |]. split; [tauto |].
    split; [intros _; rewrite orb_true_r; now repeat split |].
    split; [intros Hnil; contradiction |].
    intros w pc H. injection H as <- <-. unfold bar_width.
    split; [| split].
    + destruct (Q.min_spec (buildProgress (chat p)) 100) as [[_ ->] | [_ ->]]; lra.
    + apply Q.le_min_r.
    + split; [now apply shown_percent_nonneg | apply shown_percent_le_100].
  - assert (Hrun : running (chat p) = []).
    { destruct (running (chat p)) eqn:E; [reflexivity |].
      assert (false = true) by (apply Hiff; discriminate). discriminate. }
    split; [split; [intros H; now contradiction H | intros H; contradiction] |].
    split; [split; [discriminate | intros H; contradiction] |].
    split; [intros H; contradiction |].
    split; [| discriminate].
    intros _. split; [| reflexivity].
    rewrite !orb_false_r, has_text_iff.
    destruct (is_empty (trim (input (chat p)))) eqn:E.
    + apply is_empty_spec in E. split; [discriminate | intros H; contradiction].
    + split; [| reflexivity]. intros _ Ht. apply is_empty_spec in Ht. congruence.
Qed.

(** While the cabin is being built the input is disabled. *)
Lemma view_is_locked_while_building_witness :
  input_disabled (render (chat ticked_page)) = true <-> running (chat ticked_page) <> [].
Proof.
  apply (view_is_locked_while_building ticked_page).
  unfold ticked_page.
  apply reachable_next; [apply reachable_next; [apply reachable_next |] |].
  - apply reachable_start.
  - exact I.
  - split; vm_compute; reflexivity || discriminate.
  - split; vm_compute; reflexivity || discriminate.
Defined.

End PageFacts.

(** * The route again: the shape of every answer, and the chat in front of it *)

Section RouteShape.
Import Js.
Import Route.
Import Chat.
Import Feedback.
Import Page.

Lemma or_else_truthy a fallback :
  truthy (Some fallback) = true -> truthy (Some (or_else a fallback)) = true.
Proof.
  intros H. unfold or_else. destruct a as [x |]; [| exact H].
  destruct (truthy (Some x)) eqn:E; [exact E | exact H].
Qed.

Lemma relayable_range st : relayable st = true -> ok st = false -> 300 <= st <= 599.
Proof.
  unfold relayable, ok. intros Hr Hok.
  apply andb_true_iff in Hr. destruct Hr as [Hr _].
  apply andb_true_iff in Hr. destruct Hr as [H200 H599].
  apply Z.leb_le in H200, H599. rewrite (proj2 (Z.leb_le 200 st) H200) in Hok.
  cbn in Hok. apply Z.leb_gt in Hok. lia.
Qed.

Lemma connect_failure_reports : reports_failure connect_failure.
Proof.
  split; [reflexivity |]. exists (JStr "Failed to connect to build server").
  split; [reflexivity |]. split; [reflexivity |]. now apply truthy_stringify.
Qed.

Lemma description_required_reports : reports_failure description_required.
Proof.
  split; [reflexivity |]. exists (JStr "Description is required").
  split; [reflexivity |]. split; [reflexivity |]. now apply truthy_stringify.
Qed.

Lemma error_answer_reports st r : ok st = false -> reports_failure (error_answer st r).
Proof.
  intros Hok. unfold error_answer.
  destruct (relayable st); [| destruct r; exact connect_failure_reports].
  assert (Hrelay : reports_failure (relayed_error st r)).
  { split; [exact Hok |]. exists (detail_or_default r).
    split; [apply detail_or_default_truthy |]. split; [reflexivity |].
    apply truthy_stringify. apply detail_or_default_truthy. }
  destruct r; first [exact connect_failure_reports | exact Hrelay].
Qed.

Lemma error_answer_status st r :
  ok st = false ->
  status (error_answer st r) = 500 \/
  (status (error_answer st r) = st /\ 300 <= st <= 599).
Proof.
  intros Hok. unfold error_answer.
  destruct (relayable st) eqn:Hrel; [| destruct r; now left].
  destruct r; first [now left | right; split; [reflexivity | now apply relayable_range]].
Qed.

(** X13. Whatever the request and whatever the backend does, the route
    calls the backend at most once, and answers 200, 400, 500 or a status
    from 300 to 599 that the backend gave; it answers 200 only with what an
    ok backend sent. Every other answer has a status that is not ok and a
    body with the one field [error]: a truthy message as [JSON.stringify]
    wrote it, which is truthy as well unless the message is an infinity (a
    detail [1e999] of the backend), written as [null]. *)
Theorem POST_answer_shape env backend request :
  (List.length (snd (POST env backend request)) <= 1)%nat /\
  (status (fst (POST env backend request)) = 200 \/
   status (fst (POST env backend request)) = 400 \/
   status (fst (POST env backend request)) = 500 \/
   (300 <= status (fst (POST env backend request)) <= 599 /\
    exists sent,
      backend (build_call env (description_of request)) =
        Responded (status (fst (POST env backend request))) sent)) /\
  (status (fst (POST env backend request)) = 200 ->
   exists st result,
     backend (build_call env (description_of request)) = Responded st (Some result) /\
     ok st = true /\
     body (fst (POST env backend request)) = JSON_stringify result) /\
  (status (fst (POST env backend request)) <> 200 ->
   ok (status (fst (POST env backend request))) = false /\
   exists message,
     truthy (Some message) = true /\
     body (fst (POST env backend request)) = error_body (JSON_stringify message) /\
     (truthy (Some (JSON_stringify message)) = false <-> unwritable message)).
Proof.
  assert (Hfailure : forall sent : list FetchCall,
    (List.length sent <= 1)%nat ->
    (List.length (snd (connect_failure, sent)) <= 1)%nat /\
    (status connect_failure = 200 \/ status connect_failure = 400 \/
     status connect_failure = 500 \/
     (300 <= status connect_failure <= 599 /\
      exists sent,
        backend (build_call env (description_of request)) =
          Responded (status connect_failure) sent)) /\
    (status connect_failure = 200 ->
     exists st result,
       backend (build_call env (description_of request)) = Responded st (Some result) /\
       ok st = true /\ body connect_failure = JSON_stringify result) /\
    (status connect_failure <> 200 -> reports_failure connect_failure)).
  { intros sent Hlen. split; [exact Hlen |]. split; [cbn; tauto |].
    split; [discriminate |]. intros _. exact connect_failure_reports. }
  destruct (req_body request) as [b |] eqn:Hb;
    [destruct (null_or_not b) as [-> | Hn] |].
  - rewrite POST_on_no_value by (now right). apply Hfailure. cbn. lia.
  - rewrite (POST_on_value env backend request b Hb Hn).
    destruct (truthy (description_of request)); cbn [negb].
    + cbv zeta.
      destruct (backend (build_call env (description_of request))) as [| st [r |]] eqn:Hbk;
        [apply Hfailure; cbn; lia | | apply Hfailure; cbn; lia].
      cbn [fst snd List.length]. split; [lia |].
      destruct (ok st) eqn:Hok; cbn [negb].
      * split; [cbn; tauto |]. split; [| intros H; now contradiction H].
        intros _. now exists st, r.
      * split; [| split].
        -- destruct (error_answer_status st r Hok) as [H500 | [Hst Hrange]];
             [tauto |].
           right. right. right. rewrite Hst. split; [exact Hrange | now eexists].
        -- intros H200. destruct (error_answer_reports st r Hok) as [Hnok _].
           rewrite H200 in Hnok. discriminate Hnok.
        -- intros _. now apply error_answer_reports.
    + cbn [fst snd List.length]. split; [lia |]. split; [cbn; tauto |].
      split; [discriminate |]. intros _. exact description_required_reports.
  - rewrite POST_on_no_value by (now left). apply Hfailure. cbn. lia.
Qed.







End RouteShape.
